(** * cli-quiz: the quiz session state machine (Go package [quiz])

    A shallow embedding of [Session] and its methods, and the proofs of
    the properties its specification states.

    Conventions of the embedding.
    - A Go [string] is a sequence of bytes: Rocq's [string], whose
      characters are the 256 values of [ascii].
    - A Go [int] is a 64-bit two's complement integer: a [Z] in
      [MinInt .. MaxInt], with the wrap-around of [++] written out.
    - A slice is a [list]; an index expression [a[i]] that is out of range
      panics in Go, which is [None] here ([index], [store]).
    - Every method of [Session] locks [s.mu] on entry and unlocks it on
      return, so each call is atomic: a method is a function from the
      session before the call to the result and the session after it,
      [None] when the call panics.  The only reference to the array behind
      [s.queue] is [s.queue] itself, so slices are passed by value. *)

From Stdlib Require Import ZArith String Ascii Bool Lia.
From stdpp Require Import base tactics option list list_numbers relations gmap strings.

Local Open Scope Z_scope.

(** ** Machine integers *)

Definition MaxInt : Z := 2 ^ 63 - 1.
Definition MinInt : Z := - 2 ^ 63.

(** The value of an [int] expression whose mathematical value is [z]. *)
Definition wrap (z : Z) : Z := (z + 2 ^ 63) mod 2 ^ 64 - 2 ^ 63.

(** [x++] on an [int]. *)
Definition incr (x : Z) : Z := wrap (x + 1).

(** [len(a)] *)
Definition len {A} (a : list A) : Z := Z.of_nat (length a).

(** [a[i]]: panics unless [0 <= i < len(a)]. *)
Definition index {A} (a : list A) (i : Z) : option A :=
  if decide (0 ≤ i) then a !! Z.to_nat i else None.

(** [a[i] = x]: panics unless [0 <= i < len(a)]. *)
Definition store {A} (a : list A) (i : Z) (x : A) : option (list A) :=
  if decide (0 ≤ i < len a) then Some (<[Z.to_nat i := x]> a) else None.

(** ** Bytes *)

Definition b2z (c : ascii) : Z := Z.of_N (N_of_ascii c).
(** [byte(z)]: the low eight bits. *)
Definition z2b (z : Z) : ascii := ascii_of_N (Z.to_N (z mod 256)).

Fixpoint map_bytes (f : ascii → ascii) (s : string) : string :=
  match s with
  | EmptyString => EmptyString
  | String c s' => String (f c) (map_bytes f s')
  end.

(** ** The parts of the Go standard library that [quiz] calls

    [strings.TrimSpace], [strings.ToUpper], [strings.EqualFold] and the
    conversion [string(rune)] are not code of this repository.  They are
    written here after the library's implementation.  What depends on the
    Unicode tables is left open as the fields of [Unicode]: every theorem
    below holds for every value of them. *)

Class Unicode := {
  (** [unicode.To(unicode.UpperCase, r)] for [r > unicode.MaxASCII]: a code
      point. *)
  To_UpperCase : Z → N;
  (** [strings.TrimFunc(s, unicode.IsSpace)] *)
  TrimFunc_IsSpace : string → string;
  (** [strings.TrimRightFunc(s, unicode.IsSpace)] *)
  TrimRightFunc_IsSpace : string → string;
  (** the loop of [strings.EqualFold] after its label [hasUnicode], on the
      two remaining suffixes *)
  EqualFold_hasUnicode : string → string → bool
}.

Module utf8.

Definition RuneError : Z := 0xFFFD.
Definition RuneSelf : Z := 0x80.
Definition MaxRune : Z := 0x10FFFF.

(** The table [first] with [acceptRanges]: what a first byte announces. *)
Inductive lead : Set :=
| as_ : lead                                  (* ASCII, size 1 *)
| xx : lead                                   (* invalid, size 1 *)
| sz (size : nat) (lo hi : Z) : lead.         (* size, range of the second byte *)

Definition first (s0 : Z) : lead :=
  if s0 <? 0x80 then as_
  else if s0 <? 0xC2 then xx
  else if s0 <? 0xE0 then sz 2 0x80 0xBF
  else if s0 =? 0xE0 then sz 3 0xA0 0xBF
  else if s0 <? 0xED then sz 3 0x80 0xBF
  else if s0 =? 0xED then sz 3 0x80 0x9F
  else if s0 <? 0xF0 then sz 3 0x80 0xBF
  else if s0 =? 0xF0 then sz 4 0x90 0xBF
  else if s0 <? 0xF4 then sz 4 0x80 0xBF
  else if s0 =? 0xF4 then sz 4 0x80 0x8F
  else xx.

Definition cont (b : Z) : bool := (0x80 <=? b) && (b <=? 0xBF).

(** [utf8.DecodeRuneInString]: the first rune of [s] and its width in
    bytes; [(RuneError, 1)] on an invalid encoding. *)
Definition DecodeRuneInString (s : string) : Z * nat :=
  match s with
  | EmptyString => (RuneError, 0%nat)
  | String c0 t =>
    let s0 := b2z c0 in
    match first s0 with
    | as_ => (s0, 1%nat)
    | xx => (RuneError, 1%nat)
    | sz n lo hi =>
      if (String.length s <? n)%nat then (RuneError, 1%nat) else
      match t with
      | String c1 (String c2 (String c3 _)) =>
        let s1 := b2z c1 in let s2 := b2z c2 in let s3 := b2z c3 in
        if (s1 <? lo) || (hi <? s1) then (RuneError, 1%nat)
        else if (n <=? 2)%nat then
          (Z.lor (Z.shiftl (Z.land s0 0x1F) 6) (Z.land s1 0x3F), 2%nat)
        else if negb (cont s2) then (RuneError, 1%nat)
        else if (n <=? 3)%nat then
          (Z.lor (Z.lor (Z.shiftl (Z.land s0 0x0F) 12)
                        (Z.shiftl (Z.land s1 0x3F) 6)) (Z.land s2 0x3F), 3%nat)
        else if negb (cont s3) then (RuneError, 1%nat)
        else
          (Z.lor (Z.lor (Z.lor (Z.shiftl (Z.land s0 0x07) 18)
                               (Z.shiftl (Z.land s1 0x3F) 12))
                        (Z.shiftl (Z.land s2 0x3F) 6)) (Z.land s3 0x3F), 4%nat)
      | String c1 (String c2 EmptyString) =>
        let s1 := b2z c1 in let s2 := b2z c2 in
        if (s1 <? lo) || (hi <? s1) then (RuneError, 1%nat)
        else if (n <=? 2)%nat then
          (Z.lor (Z.shiftl (Z.land s0 0x1F) 6) (Z.land s1 0x3F), 2%nat)
        else if negb (cont s2) then (RuneError, 1%nat)
        else
          (Z.lor (Z.lor (Z.shiftl (Z.land s0 0x0F) 12)
                        (Z.shiftl (Z.land s1 0x3F) 6)) (Z.land s2 0x3F), 3%nat)
      | String c1 EmptyString =>
        let s1 := b2z c1 in
        if (s1 <? lo) || (hi <? s1) then (RuneError, 1%nat)
        else (Z.lor (Z.shiftl (Z.land s0 0x1F) 6) (Z.land s1 0x3F), 2%nat)
      | EmptyString => (RuneError, 1%nat)
      end
    end
  end.

(** [utf8.AppendRune] to the empty string, which is also the conversion
    [string(r)] of a rune: one to four bytes, the encoding of [RuneError]
    for a surrogate or a value that is no code point. *)
Definition EncodeRune (r : Z) : string :=
  if (0 <=? r) && (r <=? 0x7F) then String (z2b r) EmptyString
  else if (0 <=? r) && (r <=? 0x7FF) then
    String (z2b (Z.lor 0xC0 (Z.shiftr r 6)))
      (String (z2b (Z.lor 0x80 (Z.land r 0x3F))) EmptyString)
  else
    let r := if (r <? 0) || (MaxRune <? r) || ((0xD800 <=? r) && (r <=? 0xDFFF))
             then RuneError else r in
    if r <=? 0xFFFF then
      String (z2b (Z.lor 0xE0 (Z.shiftr r 12)))
        (String (z2b (Z.lor 0x80 (Z.land (Z.shiftr r 6) 0x3F)))
          (String (z2b (Z.lor 0x80 (Z.land r 0x3F))) EmptyString))
    else
      String (z2b (Z.lor 0xF0 (Z.shiftr r 18)))
        (String (z2b (Z.lor 0x80 (Z.land (Z.shiftr r 12) 0x3F)))
          (String (z2b (Z.lor 0x80 (Z.land (Z.shiftr r 6) 0x3F)))
            (String (z2b (Z.lor 0x80 (Z.land r 0x3F))) EmptyString))).

End utf8.

Module unicode.

Definition MaxASCII : Z := 0x7F.

(** [unicode.ToUpper]: the ASCII letters directly, the tables otherwise. *)
Definition ToUpper `{Unicode} (r : Z) : Z :=
  if r <=? MaxASCII then
    if (0x61 <=? r) && (r <=? 0x7A) then r - (0x61 - 0x41) else r
  else Z.of_N (To_UpperCase r).

End unicode.

Module strings.

(** [asciiSpace]: tab, line feed, vertical tab, form feed, carriage return
    and space. *)
Definition asciiSpace (c : Z) : bool :=
  (c =? 0x09) || (c =? 0x0A) || (c =? 0x0B) || (c =? 0x0C) || (c =? 0x0D) || (c =? 0x20).

(** One of the two loops of [TrimSpace]: skip ASCII white space from the
    front; stop at the first other ASCII byte ([false]) or at the first
    byte [>= utf8.RuneSelf] ([true]). *)
Fixpoint skipSpace (s : string) : bool * string :=
  match s with
  | EmptyString => (false, EmptyString)
  | String c s' =>
    if utf8.RuneSelf <=? b2z c then (true, s)
    else if asciiSpace (b2z c) then skipSpace s'
    else (false, s)
  end.

(** [strings.TrimSpace]: the loop from the front, then the same loop from
    the back on what is left; either one hands over to the Unicode-aware
    functions at the first byte that is not ASCII. *)
Definition TrimSpace `{Unicode} (s : string) : string :=
  match skipSpace s with
  | (true, rest) => TrimFunc_IsSpace rest
  | (false, rest) =>
    match skipSpace (String.rev rest) with
    | (true, tser) => TrimRightFunc_IsSpace (String.rev tser)
    | (false, tser) => String.rev tser
    end
  end.

(** [for i, c := range s]: the runes of [s] in order, [skip] counting the
    bytes of the current rune that are still to be passed over. *)
Fixpoint Map_range (mapping : Z → Z) (skip : nat) (s : string) : string :=
  match s with
  | EmptyString => EmptyString
  | String _ s' =>
    match skip with
    | S k => Map_range mapping k s'
    | O =>
      let '(c, width) := utf8.DecodeRuneInString s in
      let r := mapping c in
      String.app (if 0 <=? r then utf8.EncodeRune r else EmptyString)
                 (Map_range mapping (Nat.pred width) s')
    end
  end.

(** [strings.Map]: every rune replaced by its image, dropped when the
    image is negative. *)
Definition Map (mapping : Z → Z) (s : string) : string := Map_range mapping 0 s.

(** The first loop of [ToUpper] and [ToLower]: [(isASCII, hasLower)]. *)
Fixpoint scanLower (s : string) (hasLower : bool) : bool * bool :=
  match s with
  | EmptyString => (true, hasLower)
  | String c s' =>
    if utf8.RuneSelf <=? b2z c then (false, hasLower)
    else scanLower s' (hasLower || ((0x61 <=? b2z c) && (b2z c <=? 0x7A)))
  end.

(** [c -= 'a' - 'A'] for ['a' <= c <= 'z']. *)
Definition upperByte (c : ascii) : ascii :=
  if (0x61 <=? b2z c) && (b2z c <=? 0x7A) then z2b (b2z c - (0x61 - 0x41)) else c.

(** [strings.ToUpper] *)
Definition ToUpper `{Unicode} (s : string) : string :=
  match scanLower s false with
  | (true, hasLower) => if negb hasLower then s else map_bytes upperByte s
  | (false, _) => Map unicode.ToUpper s
  end.

(** [strings.EqualFold]: byte by byte while both strings are ASCII. *)
Fixpoint EqualFold `{Unicode} (s t : string) : bool :=
  match s, t with
  | String cs s', String ct t' =>
    let sr := b2z cs in
    let tr := b2z ct in
    if utf8.RuneSelf <=? Z.lor sr tr then EqualFold_hasUnicode s t
    else if tr =? sr then EqualFold s' t'
    else
      let '(sr, tr) := if tr <? sr then (tr, sr) else (sr, tr) in
      if (0x41 <=? sr) && (sr <=? 0x5A) && (tr =? sr + 0x61 - 0x41)
      then EqualFold s' t'
      else false
  | EmptyString, EmptyString => true
  | _, _ => false
  end.

End strings.

(** ** Package [quiz]: the data model *)

Module Question.

Record t : Type := mk {
  Domain : Z;
  Prompt : string;
  Options : gmap string string;
  Answer : string
}.

(** [Question{}] *)
Definition zero : t :=
  {| Domain := 0; Prompt := EmptyString; Options := ∅; Answer := EmptyString |}.

End Question.

Record Result : Type := mkResult {
  UserAnswer : string;
  Correct : bool
}.

(** [Result{}] *)
Definition Result_zero : Result := {| UserAnswer := EmptyString; Correct := false |}.

(** The field [mu] is the lock that makes every method atomic; it holds no
    data. *)
Record Session : Type := mkSession {
  Questions : list Question.t;
  attempted : list bool;
  completed : list bool;
  results : list Result;
  queue : list Z;
  completedCount : Z;
  attemptedCount : Z
}.

Definition set_queue (s : Session) (q : list Z) : Session :=
  mkSession (Questions s) (attempted s) (completed s) (results s) q
            (completedCount s) (attemptedCount s).
Definition set_completed (s : Session) (c : list bool) : Session :=
  mkSession (Questions s) (attempted s) c (results s) (queue s)
            (completedCount s) (attemptedCount s).
Definition set_attempted (s : Session) (a : list bool) : Session :=
  mkSession (Questions s) a (completed s) (results s) (queue s)
            (completedCount s) (attemptedCount s).
Definition set_results (s : Session) (r : list Result) : Session :=
  mkSession (Questions s) (attempted s) (completed s) r (queue s)
            (completedCount s) (attemptedCount s).
Definition set_completedCount (s : Session) (n : Z) : Session :=
  mkSession (Questions s) (attempted s) (completed s) (results s) (queue s)
            n (attemptedCount s).
Definition set_attemptedCount (s : Session) (n : Z) : Session :=
  mkSession (Questions s) (attempted s) (completed s) (results s) (queue s)
            (completedCount s) n.

(** A method with results of type [A]: the results and the session after
    the call, or [None] for a panic. *)
Definition method (A : Type) : Type := Session → option (A * Session).

(** [error]: [nil] or the message of [errors.New]. *)
Definition error : Type := option string.

(** ** Package [quiz]: the operations *)

(** [NewSession(qs)]; [perm] is what [rand.Perm(len(qs))] returned, a
    pseudo-random permutation of [0 .. len(qs)-1]. *)
Definition NewSession (qs : list Question.t) (perm : list Z) : Session :=
  {| Questions := qs;
     attempted := replicate (length qs) false;
     completed := replicate (length qs) false;
     results := replicate (length qs) Result_zero;
     queue := perm;
     completedCount := 0;
     attemptedCount := 0 |}.

Definition Current : method (Z * Question.t * bool) := λ s,
  match queue s with
  | [] => Some ((-1, Question.zero, false), s)
  | idx :: _ =>
    q ← index (Questions s) idx;
    Some ((idx, q, true), s)
  end.

(** [normalize]; the index expression [strings.ToUpper(ans)[0]] panics on
    the empty string. *)
Definition normalize `{Unicode} (ans : string) : option Z :=
  let ans := strings.TrimSpace ans in
  if decide (ans = EmptyString) then Some 0
  else
    match strings.ToUpper ans with
    | String c _ => Some (b2z c)
    | EmptyString => None
    end.

Definition Answer `{Unicode} (answer : string) : method (Result * bool * error) := λ s,
  match queue s with
  | [] => Some ((Result_zero, true, Some "quiz already completed"%string), s)
  | idx :: rest =>
    let s := set_queue s rest in
    ansRune ← normalize answer;
    let userAnswer :=
      if decide (ansRune ≠ 0) then utf8.EncodeRune ansRune else EmptyString in
    q ← index (Questions s) idx;
    let res := {| UserAnswer := userAnswer;
                  Correct := strings.EqualFold (strings.TrimSpace answer)
                                               (Question.Answer q) |} in
    s ← (if Correct res then
           c ← index (completed s) idx;
           if negb c then
             cs ← store (completed s) idx true;
             Some (set_completedCount (set_completed s cs) (incr (completedCount s)))
           else Some s
         else Some s);
    s ← (a ← index (attempted s) idx;
         if negb a then
           ats ← store (attempted s) idx true;
           let s := set_attempted s ats in
           rs ← store (results s) idx res;
           let s := set_results s rs in
           Some (set_attemptedCount s (incr (attemptedCount s)))
         else Some s);
    let s := if negb (Correct res) then set_queue s (queue s ++ [idx]) else s in
    let finished := bool_decide (len (queue s) = 0) in
    Some ((res, finished, None), s)
  end.

(** The loop of [BringToFront]: the position of the first [target] in the
    queue from position [i] on, [pos] when there is none. *)
Fixpoint find_pos (q : list Z) (target : Z) (i pos : Z) : Z :=
  match q with
  | [] => pos
  | v :: q' => if decide (v = target) then i else find_pos q' target (i + 1) pos
  end.

(** [a[:hi]] and [a[lo:]]; a bound outside [0 .. len(a)] panics. *)
Definition slice_to {A} (a : list A) (hi : Z) : option (list A) :=
  if decide (0 ≤ hi ≤ len a) then Some (take (Z.to_nat hi) a) else None.
Definition slice_from {A} (a : list A) (lo : Z) : option (list A) :=
  if decide (0 ≤ lo ≤ len a) then Some (drop (Z.to_nat lo) a) else None.

(** [BringToFront].  The inner [append] shifts the tail of the queue
    within the old array; the outer one builds a new array, since
    [[]int{target}] has no room left, and [s.queue] becomes the new slice. *)
Definition BringToFront (target : Z) : method unit := λ s,
  if decide (target < 0 ∨ len (completed s) ≤ target) then Some ((), s)
  else
    c ← index (completed s) target;
    if (c : bool) then Some ((), s)
    else
      let pos := find_pos (queue s) target 0 (-1) in
      if decide (pos = 0) then Some ((), s)
      else if decide (pos = -1) then Some ((), set_queue s ([target] ++ queue s))
      else
        before ← slice_to (queue s) pos;
        after ← slice_from (queue s) (pos + 1);
        Some ((), set_queue s ([target] ++ (before ++ after))).

Definition Progress : method (Z * Z) := λ s,
  Some ((completedCount s, len (Questions s)), s).

Definition AttemptedCount : method Z := λ s, Some (attemptedCount s, s).

(** [Results]: a copy of [s.results]. *)
Definition Results : method (list Result) := λ s, Some (results s, s).

(** The loop of [Score] over [s.results] from index [i] on. *)
Fixpoint Score_loop (rs : list Result) (i : Z) (att : list bool)
    (score answered : Z) : option (Z * Z) :=
  match rs with
  | [] => Some (score, answered)
  | res :: rs' =>
    a ← index att i;
    if (a : bool) then
      let answered := incr answered in
      let score := if Correct res then incr score else score in
      Score_loop rs' (i + 1) att score answered
    else Score_loop rs' (i + 1) att score answered
  end.

Definition Score : method (Z * Z) := λ s,
  r ← Score_loop (results s) 0 (attempted s) 0 0;
  Some (r, s).

Definition Completed : method bool := λ s,
  Some (bool_decide (len (queue s) = 0), s).

(** ** The state machine *)

(** One call of a method of [Session] that returns: [Answer] and
    [BringToFront], which change the session, and the six queries. *)
Inductive step `{Unicode} : Session → Session → Prop :=
| step_Answer answer s r s' :
    Answer answer s = Some (r, s') → step s s'
| step_BringToFront target s s' :
    BringToFront target s = Some ((), s') → step s s'
| step_Current s r s' :
    Current s = Some (r, s') → step s s'
| step_Progress s r s' :
    Progress s = Some (r, s') → step s s'
| step_AttemptedCount s r s' :
    AttemptedCount s = Some (r, s') → step s s'
| step_Results s r s' :
    Results s = Some (r, s') → step s s'
| step_Score s r s' :
    Score s = Some (r, s') → step s s'
| step_Completed s r s' :
    Completed s = Some (r, s') → step s s'.

(** A method is a query when the session it returns is the one it was
    called on. *)
Definition query {A} (m : method A) : Prop := ∀ s r s', m s = Some (r, s') → s' = s.

(** The sessions that [NewSession] followed by any sequence of calls
    produces.  A Go slice has at most [MaxInt] elements, and [rand.Perm(n)]
    is a permutation of [0 .. n-1]. *)
Definition reachable `{Unicode} (s : Session) : Prop :=
  ∃ qs perm,
    len qs ≤ MaxInt ∧ perm ≡ₚ seqZ 0 (len qs) ∧ rtc step (NewSession qs perm) s.

(** The number of [true] entries of a slice of flags. *)
Fixpoint count_true (l : list bool) : Z :=
  match l with
  | [] => 0
  | b :: l' => (if b then 1 else 0) + count_true l'
  end.

(** The number of first attempts that were right: entries [i] with
    [att[i]] and [rs[i].Correct]. *)
Fixpoint count_correct (att : list bool) (rs : list Result) : Z :=
  match att, rs with
  | a :: att', r :: rs' => (if a && Correct r then 1 else 0) + count_correct att' rs'
  | _, _ => 0
  end.

(** The same two numbers as the specification words them: the number of
    indices [i] with [attempted[i] = true], and the number of those whose
    [results[i].correct] is true. *)
Definition num_attempted (s : Session) : Z :=
  len (filter (λ i, index (attempted s) i = Some true)
              (seqZ 0 (len (attempted s)))).

Definition num_completed (s : Session) : Z :=
  len (filter (λ i, index (completed s) i = Some true)
              (seqZ 0 (len (completed s)))).

Definition num_first_correct (s : Session) : Z :=
  len (filter (λ i, index (attempted s) i = Some true
                    ∧ Correct <$> index (results s) i = Some true)
              (seqZ 0 (len (results s)))).

(** The invariant of a session. *)
Record inv (s : Session) : Prop := mk_inv {
  inv_max : len (Questions s) ≤ MaxInt;
  inv_attempted : len (attempted s) = len (Questions s);
  inv_completed : len (completed s) = len (Questions s);
  inv_results : len (results s) = len (Questions s);
  inv_nodup : NoDup (queue s);
  inv_queue : ∀ i, i ∈ queue s ↔ index (completed s) i = Some false;
  inv_first : ∀ i, index (completed s) i = Some true → index (attempted s) i = Some true;
  inv_completedCount : completedCount s = count_true (completed s);
  inv_attemptedCount : attemptedCount s = count_true (attempted s)
}.

(** The grade that [Answer] computes for [answer] against question [q]. *)
Definition grade `{Unicode} (answer : string) (q : Question.t) : option Result :=
  ansRune ← normalize answer;
  Some {| UserAnswer := if decide (ansRune ≠ 0) then utf8.EncodeRune ansRune
                        else EmptyString;
          Correct := strings.EqualFold (strings.TrimSpace answer) (Question.Answer q) |}.

(** The session that [Answer] leaves behind when it has taken [idx] from
    the front of the queue, [rest] is what remained, and the grade is
    [res]. *)
Definition answered (s : Session) (idx : Z) (rest : list Z) (res : Result) : Session :=
  let a := index (attempted s) idx in
  let c := index (completed s) idx in
  {| Questions := Questions s;
     attempted := <[Z.to_nat idx := true]> (attempted s);
     completed := if Correct res then <[Z.to_nat idx := true]> (completed s)
                  else completed s;
     results := if decide (a = Some true) then results s
                else <[Z.to_nat idx := res]> (results s);
     queue := if Correct res then rest else rest ++ [idx];
     completedCount := if Correct res && bool_decide (c = Some false)
                       then incr (completedCount s) else completedCount s;
     attemptedCount := if decide (a = Some true) then attemptedCount s
                       else incr (attemptedCount s) |}.

(** ** What a call never undoes *)

(** The flags, the first-attempt results and the counters from [s] to a later [s']. *)
Definition keeps (s s' : Session) : Prop :=
  (∀ i, index (attempted s) i = Some true →
        index (attempted s') i = Some true
        ∧ index (results s') i = index (results s) i)
  ∧ (∀ i, index (completed s) i = Some true → index (completed s') i = Some true)
  ∧ attemptedCount s ≤ attemptedCount s'
  ∧ completedCount s ≤ completedCount s'.

(** ** Examples

    Values of the open fields for the examples, in which every rune above
    ASCII is its own upper case, is no white space and folds with no other
    rune.  The examples below use ASCII input only, on which no field is
    consulted. *)
Definition ascii_only : Unicode :=
  {| To_UpperCase := Z.to_N;
     TrimFunc_IsSpace := λ s, s;
     TrimRightFunc_IsSpace := λ s, s;
     EqualFold_hasUnicode := String.eqb |}.

(** A question with the answer key [key]. *)
Definition question (key : string) : Question.t :=
  {| Question.Domain := 1; Question.Prompt := "Sky color?";
     Question.Options := ∅; Question.Answer := key |}.

(** Two questions, the second one first in the queue; the session after a
    wrong answer to it; and the session after both questions have then been
    answered right. *)
Definition two_questions : Session :=
  NewSession [question "A"; question "B"] [1; 0].

Definition after_wrong_answer : Session :=
  Eval vm_compute in
    match Answer (H := ascii_only) "C" two_questions with
    | Some (_, s) => s
    | None => two_questions
    end.

Definition finished_session : Session :=
  Eval vm_compute in
    match Answer (H := ascii_only) "a" after_wrong_answer
          ≫= λ r, Answer (H := ascii_only) " b" r.2 with
    | Some (_, s) => s
    | None => two_questions
    end.

(** The byte with value zero, as a one-byte string. *)
Definition NUL : string := String (z2b 0) EmptyString.

(** ** The specification's wording of the grade *)

(** Every byte of [s] is ASCII. *)
Fixpoint is_ascii (s : string) : bool :=
  match s with
  | EmptyString => true
  | String c s' => (b2z c <? utf8.RuneSelf) && is_ascii s'
  end.

Definition lowerByte (c : ascii) : ascii :=
  if (0x41 <=? b2z c) && (b2z c <=? 0x5A) then z2b (b2z c + (0x61 - 0x41)) else c.

(** Case-insensitive equality of two whole ASCII strings: equal once every
    upper case letter is replaced by its lower case letter. *)
Definition equal_ignoring_case (s t : string) : bool :=
  bool_decide (map_bytes lowerByte s = map_bytes lowerByte t).

(** The uppercased first character of [t], for a [t] that starts with a
    one-byte character. *)
Definition uppercased_first_character (t : string) : string :=
  match t with
  | EmptyString => EmptyString
  | String c _ => String (strings.upperByte c) EmptyString
  end.

(** "é" (U+00E9), "É" (U+00C9) and "Ã" (U+00C3) in UTF-8. *)
Definition e_acute : string := String (z2b 0xC3) (String (z2b 0xA9) EmptyString).
Definition E_acute : string := String (z2b 0xC3) (String (z2b 0x89) EmptyString).
Definition A_tilde : string := String (z2b 0xC3) (String (z2b 0x83) EmptyString).

(** Values of the open fields that know the letter "é": its upper case is
    "É", and it is no white space. *)
Definition knows_e_acute : Unicode :=
  {| To_UpperCase := λ r, if r =? 0xE9 then 0xC9%N else Z.to_N r;
     TrimFunc_IsSpace := λ s, s;
     TrimRightFunc_IsSpace := λ s, s;
     EqualFold_hasUnicode := String.eqb |}.

(** ** Proof automation *)

(** A rune put together from masked and shifted bytes is not negative. *)
Ltac bits_nonneg :=
  repeat first
    [ apply Z.lor_nonneg; split
    | apply Z.shiftl_nonneg
    | apply Z.land_nonneg; right; lia ].

(** ** The stored first attempts *)

(** What the slice [results] holds: the zero [Result] for a question that
    was never attempted, and a first attempt that was right only for a
    question that is completed. *)
Record first_attempts (s : Session) : Prop := mk_first_attempts {
  unattempted_zero : ∀ i,
    index (attempted s) i = Some false → index (results s) i = Some Result_zero;
  first_correct_completed : ∀ i r,
    index (attempted s) i = Some true → index (results s) i = Some r →
    Correct r = true → index (completed s) i = Some true
}.

(** A caller that submits the answers of a list one after the other, as
    the loop of [runCLI] and a sequence of requests to [handleAnswer] do. *)
Fixpoint submit `{Unicode} (answers : list string) (s : Session) : option Session :=
  match answers with
  | [] => Some s
  | a :: answers' => r ← Answer a s; submit answers' r.2
  end.

(** The stored answer key of question [i], the empty string out of
    range. *)
Definition key_of (qs : list Question.t) (i : Z) : string :=
  match index qs i with
  | Some q => Question.Answer q
  | None => EmptyString
  end.

(** Every attempt so far was a first attempt and was right. *)
Definition spotless (s : Session) : Prop :=
  attempted s = completed s
  ∧ count_correct (attempted s) (results s) = count_true (attempted s).

(** ** More of the Go standard library: [strconv.Atoi], [strings.ToLower],
    [strings.Contains] and [float64]

    As above these are written after the library; the lower case table
    and the floating point operations are left open. *)

Class UnicodeLower := {
  (** [unicode.To(unicode.LowerCase, r)] for [r > unicode.MaxASCII]: a code
      point. *)
  To_LowerCase : Z → N
}.

(** The type [float64] with the conversion [float64(n)] of an [int] and
    the operations [*] and [/]. *)
Class Float64 := {
  float64 : Type;
  float64_of_int : Z → float64;
  float64_mul : float64 → float64 → float64;
  float64_div : float64 → float64 → float64
}.

(** [x - y] on [int]. *)
Definition sub (x y : Z) : Z := wrap (x - y).

Module strconv.

(** The digits of a decimal number, from the most significant one, added
    to [n]; [None] at a byte that is no digit. *)
Fixpoint digits (s : string) (n : Z) : option Z :=
  match s with
  | EmptyString => Some n
  | String c s' =>
    let d := b2z c - 0x30 in
    if (0 <=? d) && (d <=? 9) then digits s' (n * 10 + d) else None
  end.

(** [strconv.Atoi]: an optional sign and at least one decimal digit, of a
    value that fits [int]; [None] stands for every error. *)
Definition Atoi (s : string) : option Z :=
  let '(neg, ds) :=
    match s with
    | String c rest =>
      if b2z c =? 0x2D then (true, rest)
      else if b2z c =? 0x2B then (false, rest)
      else (false, s)
    | EmptyString => (false, s)
    end in
  if decide (ds = EmptyString) then None
  else
    n ← digits ds 0;
    let v := if (neg : bool) then - n else n in
    if decide (MinInt ≤ v ≤ MaxInt) then Some v else None.

End strconv.

Module unicode_lower.

(** [unicode.ToLower] *)
Definition ToLower `{UnicodeLower} (r : Z) : Z :=
  if r <=? unicode.MaxASCII then
    if (0x41 <=? r) && (r <=? 0x5A) then r + (0x61 - 0x41) else r
  else Z.of_N (To_LowerCase r).

End unicode_lower.

Module strings_more.

(** The first loop of [ToLower]: [(isASCII, hasUpper)]. *)
Fixpoint scanUpper (s : string) (hasUpper : bool) : bool * bool :=
  match s with
  | EmptyString => (true, hasUpper)
  | String c s' =>
    if utf8.RuneSelf <=? b2z c then (false, hasUpper)
    else scanUpper s' (hasUpper || ((0x41 <=? b2z c) && (b2z c <=? 0x5A)))
  end.

(** [strings.ToLower] *)
Definition ToLower `{UnicodeLower} (s : string) : string :=
  match scanUpper s false with
  | (true, hasUpper) => if negb hasUpper then s else map_bytes lowerByte s
  | (false, _) => strings.Map unicode_lower.ToLower s
  end.

(** [strings.HasPrefix] *)
Fixpoint HasPrefix (s prefix : string) : bool :=
  match prefix, s with
  | EmptyString, _ => true
  | String p prefix', String c s' => bool_decide (c = p) && HasPrefix s' prefix'
  | String _ _, EmptyString => false
  end.

(** [strings.Contains]: [substr] starts at some position of [s]. *)
Fixpoint Contains (s substr : string) : bool :=
  HasPrefix s substr
  || match s with
     | EmptyString => false
     | String _ s' => Contains s' substr
     end.

End strings_more.

(** ** Package [webapp] *)

Module progressPayload.
Record t : Type := mk {
  Completed : Z;
  Total : Z;
  Remaining : Z;
  Attempted : Z
}.
End progressPayload.

Module questionPayload.
Record t : Type := mk {
  Index : Z;
  Domain : Z;
  Prompt : string;
  Options : gmap string string
}.
End questionPayload.

Module summaryRow.
Record t : Type := mk {
  Index : Z;
  Correct : bool;
  UserAnswer : string;
  CorrectAnswer : string
}.
End summaryRow.

Module summaryPayload.
Record t `{Float64} : Type := mk {
  Score : Z;
  Answered : Z;
  Total : Z;
  Percent : float64;
  Rows : list summaryRow.t
}.
End summaryPayload.

Module stateResponse.
Record t `{Float64} : Type := mk {
  Finished : bool;
  Question : option questionPayload.t;
  Progress : progressPayload.t;
  Summary : option summaryPayload.t
}.
End stateResponse.

Module answerRequest.
Record t : Type := mk { Answer : string }.
End answerRequest.

Module answerResponse.
Record t : Type := mk {
  Result : Result;
  Finished : bool;
  CorrectAnswer : string;
  Progress : progressPayload.t
}.
(** [answerResponse{Finished: true}] *)
Definition finished : t :=
  {| Result := Result_zero; Finished := true; CorrectAnswer := EmptyString;
     Progress := progressPayload.mk 0 0 0 0 |}.
End answerResponse.

Module jumpRequest.
Record t : Type := mk { Term : string }.
End jumpRequest.

Module jumpResponse.
Record t : Type := mk {
  Found : bool;
  Index : Z;
  Domain : Z;
  Prompt : string
}.
(** [jumpResponse{Found: false}] *)
Definition not_found : t :=
  {| Found := false; Index := 0; Domain := 0; Prompt := EmptyString |}.
End jumpResponse.

(** The field [mu] guards the pointer [session]; the session itself is
    shared with the handlers that are running. *)
Record Server : Type := mkServer {
  session : Session;
  questions : list Question.t
}.

(** What a handler writes: a status and nothing else, or a body that
    [writeJSON] encodes. *)
Inductive reply (A : Type) : Type :=
| WriteHeader (status : Z)
| writeJSON (body : A).
Arguments WriteHeader {A} status.
Arguments writeJSON {A} body.

Definition StatusBadRequest : Z := 400.
Definition StatusMethodNotAllowed : Z := 405.
Definition MethodPost : string := "POST".

(** A handler with replies of type [A]: the reply and the server after the
    request, or [None] for a panic. *)
Definition handler (A : Type) : Type := Server → option (reply A * Server).

(** A call of a method on the session of the server. *)
Definition on_session {A} (m : method A) (sv : Server) : option (A * Server) :=
  '(r, ses) ← m (session sv);
  Some (r, mkServer ses (questions sv)).

(** [Run]: the server before the first request; [perm] is the permutation
    drawn by [NewSession]. *)
Definition Run (qs : list Question.t) (perm : list Z) : Server :=
  {| session := NewSession qs perm; questions := qs |}.

(** The loop of [buildSummary] over the results from index [i] on. *)
Fixpoint summaryRows (rs : list Result) (i : Z) (qs : list Question.t)
    : option (list summaryRow.t) :=
  match rs with
  | [] => Some []
  | res :: rs' =>
    q ← index qs i;
    rows ← summaryRows rs' (i + 1) qs;
    Some ({| summaryRow.Index := incr i;
             summaryRow.Correct := Correct res;
             summaryRow.UserAnswer := UserAnswer res;
             summaryRow.CorrectAnswer := Question.Answer q |} :: rows)
  end.

Definition buildSummary `{Float64} (sv : Server) : option (summaryPayload.t * Server) :=
  '((score, answered), sv) ← on_session Score sv;
  '(results, sv) ← on_session Results sv;
  rows ← summaryRows results 0 (Questions (session sv));
  let total := len results in
  let percent :=
    if decide (0 < answered)
    then float64_div (float64_mul (float64_of_int score) (float64_of_int 100))
                     (float64_of_int answered)
    else float64_of_int 0 in
  Some ({| summaryPayload.Score := score; summaryPayload.Answered := answered;
           summaryPayload.Total := total; summaryPayload.Percent := percent;
           summaryPayload.Rows := rows |}, sv).

Definition handleState `{Float64} : handler stateResponse.t := λ sv,
  '((completed, total), sv) ← on_session Progress sv;
  '(attempted, sv) ← on_session AttemptedCount sv;
  '((idx, q, ok), sv) ← on_session Current sv;
  let progress :=
    {| progressPayload.Completed := completed; progressPayload.Total := total;
       progressPayload.Remaining := sub total completed;
       progressPayload.Attempted := attempted |} in
  if negb ok then
    '(summary, sv) ← buildSummary sv;
    Some (writeJSON {| stateResponse.Finished := true;
                       stateResponse.Question := None;
                       stateResponse.Progress := progress;
                       stateResponse.Summary := Some summary |}, sv)
  else
    Some (writeJSON {| stateResponse.Finished := false;
                       stateResponse.Question :=
                         Some {| questionPayload.Index := idx;
                                 questionPayload.Domain := Question.Domain q;
                                 questionPayload.Prompt := Question.Prompt q;
                                 questionPayload.Options := Question.Options q |};
                       stateResponse.Progress := progress;
                       stateResponse.Summary := None |}, sv).

(** [handleAnswer]; [body] is what [Decode] made of the request body,
    [None] when it returned an error. *)
Definition handleAnswer `{Unicode} (method : string) (body : option answerRequest.t)
    : handler answerResponse.t := λ sv,
  if decide (method ≠ MethodPost) then Some (WriteHeader StatusMethodNotAllowed, sv)
  else
    match body with
    | None => Some (WriteHeader StatusBadRequest, sv)
    | Some req =>
      '((_, q, ok), sv) ← on_session Current sv;
      if negb ok then Some (writeJSON answerResponse.finished, sv)
      else
        '((res, finished, _), sv) ← on_session (Answer (answerRequest.Answer req)) sv;
        '((completed, total), sv) ← on_session Progress sv;
        '(attempted, sv) ← on_session AttemptedCount sv;
        Some (writeJSON
                {| answerResponse.Result := res;
                   answerResponse.Finished := finished;
                   answerResponse.CorrectAnswer := Question.Answer q;
                   answerResponse.Progress :=
                     {| progressPayload.Completed := completed;
                        progressPayload.Total := total;
                        progressPayload.Remaining := sub total completed;
                        progressPayload.Attempted := attempted |} |}, sv)
    end.

Definition handleSummary `{Float64} : handler summaryPayload.t := λ sv,
  '(summary, sv) ← buildSummary sv;
  Some (writeJSON summary, sv).

(** [handleReset]; [perm] is the permutation drawn by [NewSession]. *)
Definition handleReset (method : string) (perm : list Z)
    : handler (gmap string string) := λ sv,
  if decide (method ≠ MethodPost) then Some (WriteHeader StatusMethodNotAllowed, sv)
  else
    let sv := mkServer (NewSession (questions sv) perm) (questions sv) in
    Some (writeJSON {[ "status"%string := "reset"%string ]}, sv).

(** The loop of [findQuestionIndex] over the questions from index [i] on. *)
Fixpoint findPrompt `{UnicodeLower} (qs : list Question.t) (needle : string) (i : Z) : Z :=
  match qs with
  | [] => -1
  | q :: qs' =>
    if strings_more.Contains (strings_more.ToLower (Question.Prompt q)) needle
    then i
    else findPrompt qs' needle (i + 1)
  end.

Definition findQuestionIndex `{UnicodeLower} (term : string) (sv : Server) : Z :=
  let byNumber :=
    match strconv.Atoi term with
    | Some n =>
      let n := sub n 1 in
      if decide (0 ≤ n ∧ n < len (questions sv)) then Some n else None
    | None => None
    end in
  match byNumber with
  | Some n => n
  | None => findPrompt (questions sv) (strings_more.ToLower term) 0
  end.

(** [handleJump]; [body] is what [Decode] made of the request body. *)
Definition handleJump `{Unicode} `{UnicodeLower} (method : string)
    (body : option jumpRequest.t) : handler jumpResponse.t := λ sv,
  if decide (method ≠ MethodPost) then Some (WriteHeader StatusMethodNotAllowed, sv)
  else
    match body with
    | None => Some (WriteHeader StatusBadRequest, sv)
    | Some req =>
      let term := strings.TrimSpace (jumpRequest.Term req) in
      if decide (term = EmptyString) then Some (writeJSON jumpResponse.not_found, sv)
      else
        '(completed, sv) ← on_session Completed sv;
        if (completed : bool) then Some (writeJSON jumpResponse.not_found, sv)
        else
          let idx := findQuestionIndex term sv in
          if decide (idx < 0) then Some (writeJSON jumpResponse.not_found, sv)
          else
            '(_, sv) ← on_session (BringToFront idx) sv;
            q ← index (questions sv) idx;
            Some (writeJSON {| jumpResponse.Found := true;
                               jumpResponse.Index := incr idx;
                               jumpResponse.Domain := Question.Domain q;
                               jumpResponse.Prompt := Question.Prompt q |}, sv)
    end.

(** Values of the lower case table for the examples: every rune above
    ASCII is its own lower case. *)
Definition ascii_lower : UnicodeLower := {| To_LowerCase := Z.to_N |}.

(** A server whose session is reachable and is a session over the
    questions of the server. *)
Definition server_ok `{Unicode} (sv : Server) : Prop :=
  reachable (session sv) ∧ Questions (session sv) = questions sv.

(** The number of rows of a summary that are marked correct. *)
Definition rows_correct (rows : list summaryRow.t) : Z :=
  len (filter (λ row, summaryRow.Correct row = true) rows).

(** A request to the server; [perm] is the permutation that [NewSession]
    draws on a reset. *)
Inductive request : Type :=
| GetState
| PostAnswer (method : string) (body : option answerRequest.t)
| GetSummary
| PostReset (method : string) (perm : list Z)
| PostJump (method : string) (body : option jumpRequest.t).

(** The server after a request. *)
Definition serve `{Unicode} `{UnicodeLower} `{Float64} (r : request) (sv : Server)
    : option Server :=
  match r with
  | GetState => snd <$> handleState sv
  | PostAnswer method body => snd <$> handleAnswer method body sv
  | GetSummary => snd <$> handleSummary sv
  | PostReset method perm => snd <$> handleReset method perm sv
  | PostJump method body => snd <$> handleJump method body sv
  end.

Fixpoint serve_all `{Unicode} `{UnicodeLower} `{Float64} (rs : list request)
    (sv : Server) : option Server :=
  match rs with
  | [] => Some sv
  | r :: rs' => sv' ← serve r sv; serve_all rs' sv'
  end.

(** The permutation of a reset is one that [rand.Perm] may return. *)
Definition well_drawn (qs : list Question.t) (r : request) : Prop :=
  match r with
  | PostReset _ perm => perm ≡ₚ seqZ 0 (len qs)
  | _ => True
  end.

(** Values of the floating point operations for the examples: the
    rational numbers. *)
Definition rational : Float64 :=
  {| float64 := QArith_base.Q; float64_of_int := QArith_base.inject_Z;
     float64_mul := QArith_base.Qmult; float64_div := QArith_base.Qdiv |}.

(** ** Package [main]: the helpers of the terminal front end *)

(** [unicodeToLetter]; both branches of its [if] return [ch]. *)
Definition unicodeToLetter `{Unicode} (ch : Z) : option Z :=
  match strings.ToUpper (utf8.EncodeRune ch) with
  | String c _ =>
    let ch := b2z c in
    if (0x41 <=? ch) && (ch <=? 0x44) then Some ch else Some ch
  | EmptyString => None
  end.

(** [isCorrect] of the first version of the quiz, which graded without a
    session. *)
Definition isCorrect `{Unicode} (choice : Z) (q : Question.t) : bool :=
  strings.EqualFold (utf8.EncodeRune choice) (Question.Answer q).

(** The terminal: the lines that [reader.Scan()] is still to yield, and
    what has been printed so far. *)
Record console : Type := mkConsole {
  stdin : list string;
  stdout : list string
}.

(** [for _, l := range letters { if ch == l { return ch, true } }] *)
Fixpoint among (ch : Z) (letters : list Z) : bool :=
  match letters with
  | [] => false
  | l :: letters' => if decide (ch = l) then true else among ch letters'
  end.

(** [fallbackPrompt]: one turn of its loop for each line read. *)
Fixpoint fallbackPrompt_loop `{Unicode} (letters : list Z) (lines : list string)
    (out : list string) : option ((Z * bool) * console) :=
  let out := out ++ ["Your answer (A-D): "%string] in
  match lines with
  | [] => Some ((0, false), mkConsole [] out)
  | line :: lines' =>
    let input := strings.TrimSpace line in
    match input with
    | EmptyString => fallbackPrompt_loop letters lines' out
    | String c _ =>
      ch ← unicodeToLetter (b2z c);
      if among ch letters then Some ((ch, true), mkConsole lines' out)
      else fallbackPrompt_loop letters lines' out
    end
  end.

Definition fallbackPrompt `{Unicode} (letters : list Z) (tty : console)
    : option ((Z * bool) * console) :=
  fallbackPrompt_loop letters (stdin tty) (stdout tty).

(** [[]rune(s)]: the runes of [s], as in [strings.Map_range]. *)
Fixpoint runes_range (skip : nat) (s : string) : list Z :=
  match s with
  | EmptyString => []
  | String _ s' =>
    match skip with
    | S k => runes_range k s'
    | O =>
      let '(c, width) := utf8.DecodeRuneInString s in
      c :: runes_range (Nat.pred width) s'
    end
  end.

Definition runes (s : string) : list Z := runes_range 0 s.

(** [strings.Repeat(" ", count)]; a negative count panics. *)
Fixpoint spaces (n : nat) : string :=
  match n with
  | O => EmptyString
  | S n' => String " " (spaces n')
  end.

Definition Repeat_space (count : Z) : option string :=
  if decide (count < 0) then None else Some (spaces (Z.to_nat count)).

Definition padRight (s : string) (width : Z) : option string :=
  let rs := runes s in
  if decide (width ≤ len rs) then Some s
  else
    pad ← Repeat_space (sub width (len rs));
    Some (String.app s pad).

(** [centerLine]; [/] on [int] rounds towards zero. *)
Definition centerLine (s : string) (width : Z) : option string :=
  if decide (width ≤ 0) then Some s
  else
    let rs := runes s in
    let pad := wrap (Z.quot (sub width (len rs)) 2) in
    let pad := if decide (pad < 0) then 0 else pad in
    pad ← Repeat_space pad;
    Some (String.app pad s).

(** The letter that [fallbackPrompt] reads off a line, if any. *)
Definition letter_of `{Unicode} (line : string) : option Z :=
  match strings.TrimSpace line with
  | EmptyString => None
  | String c _ => unicodeToLetter (b2z c)
  end.


(** * Proofs *)

(** ** Bytes and strings *)

Lemma b2z_range c : 0 ≤ b2z c < 256.
Proof.
  unfold b2z. pose proof (N_ascii_bounded c). lia.
Qed.

Lemma z2b_b2z c : z2b (b2z c) = c.
Proof.
  unfold z2b. pose proof (b2z_range c).
  rewrite Z.mod_small by lia. unfold b2z.
  rewrite N2Z.id. apply ascii_N_embedding.
Qed.

Lemma b2z_z2b z : 0 ≤ z < 256 → b2z (z2b z) = z.
Proof.
  intros Hz. unfold b2z, z2b. rewrite Z.mod_small by lia.
  rewrite N_ascii_embedding by lia. lia.
Qed.

Lemma EncodeRune_nonempty r : utf8.EncodeRune r ≠ EmptyString.
Proof.
  unfold utf8.EncodeRune. repeat case_match; discriminate.
Qed.

Lemma EncodeRune_ascii r :
  0 ≤ r ≤ 0x7F → utf8.EncodeRune r = String (z2b r) EmptyString.
Proof.
  intros Hr. unfold utf8.EncodeRune.
  destruct (0 <=? r) eqn:H0; [|lia]. destruct (r <=? 0x7F) eqn:H1; [|lia]. done.
Qed.

Lemma DecodeRuneInString_ascii c s :
  b2z c < utf8.RuneSelf →
  utf8.DecodeRuneInString (String c s) = (b2z c, 1%nat).
Proof.
  intros Hc. unfold utf8.RuneSelf in Hc. simpl. unfold utf8.first.
  destruct (b2z c <? 0x80) eqn:E; [done|lia].
Qed.

Lemma DecodeRuneInString_nonneg s : 0 ≤ (utf8.DecodeRuneInString s).1.
Proof.
  unfold utf8.DecodeRuneInString.
  repeat case_match; simpl; try (unfold utf8.RuneError; lia);
    try apply b2z_range; bits_nonneg.
Qed.

Lemma unicode_ToUpper_nonneg `{Unicode} r : 0 ≤ r → 0 ≤ unicode.ToUpper r.
Proof.
  intros Hr. unfold unicode.ToUpper. repeat case_match; lia.
Qed.

Lemma unicode_ToUpper_ascii `{Unicode} c :
  b2z c < utf8.RuneSelf → unicode.ToUpper (b2z c) = b2z (strings.upperByte c).
Proof.
  intros Hc. unfold utf8.RuneSelf in Hc. pose proof (b2z_range c).
  unfold unicode.ToUpper, unicode.MaxASCII, strings.upperByte.
  destruct (b2z c <=? 0x7F) eqn:E; [|lia].
  destruct ((0x61 <=? b2z c) && (b2z c <=? 0x7A)) eqn:E'; [|done].
  rewrite b2z_z2b; lia.
Qed.

Lemma upperByte_ascii c :
  b2z c < utf8.RuneSelf → 0 ≤ b2z (strings.upperByte c) < utf8.RuneSelf.
Proof.
  intros Hc. unfold utf8.RuneSelf in *. pose proof (b2z_range c).
  unfold strings.upperByte.
  destruct ((0x61 <=? b2z c) && (b2z c <=? 0x7A)) eqn:E; [|lia].
  rewrite b2z_z2b; lia.
Qed.

(** [strings.Map] with [unicode.ToUpper] starts with the image of the first
    rune, so it maps no string but the empty one to the empty string. *)
Lemma Map_ToUpper_nonempty `{Unicode} s :
  s ≠ EmptyString → strings.Map unicode.ToUpper s ≠ EmptyString.
Proof.
  destruct s as [|c s]; [done|]. intros _.
  unfold strings.Map. cbn [strings.Map_range].
  destruct (utf8.DecodeRuneInString (String c s)) as [r w] eqn:Hd.
  pose proof (DecodeRuneInString_nonneg (String c s)) as Hr. rewrite Hd in Hr.
  pose proof (unicode_ToUpper_nonneg r Hr) as Hu.
  destruct (0 <=? unicode.ToUpper r) eqn:E; [|lia].
  pose proof (EncodeRune_nonempty (unicode.ToUpper r)).
  destruct (utf8.EncodeRune (unicode.ToUpper r)); [done|]. discriminate.
Qed.

Lemma Map_ToUpper_head `{Unicode} c s :
  b2z c < utf8.RuneSelf →
  ∃ t, strings.Map unicode.ToUpper (String c s) = String (strings.upperByte c) t.
Proof.
  intros Hc. unfold strings.Map. cbn [strings.Map_range].
  rewrite DecodeRuneInString_ascii by done.
  rewrite unicode_ToUpper_ascii by done.
  pose proof (upperByte_ascii c Hc) as Hu. unfold utf8.RuneSelf in Hu.
  destruct (0 <=? b2z (strings.upperByte c)) eqn:E; [|lia].
  rewrite EncodeRune_ascii by lia. rewrite z2b_b2z. simpl. eauto.
Qed.

Lemma map_bytes_nonempty f s : s ≠ EmptyString → map_bytes f s ≠ EmptyString.
Proof. destruct s; [done|discriminate]. Qed.

Lemma ToUpper_nonempty `{Unicode} s :
  s ≠ EmptyString → strings.ToUpper s ≠ EmptyString.
Proof.
  intros Hs. unfold strings.ToUpper.
  destruct (strings.scanLower s false) as [[] hasLower].
  - destruct hasLower; simpl; [by apply map_bytes_nonempty|done].
  - by apply Map_ToUpper_nonempty.
Qed.

Lemma scanLower_true_head c s b :
  b2z c < utf8.RuneSelf → strings.scanLower (String c s) b = (true, false) →
  strings.upperByte c = c.
Proof.
  intros Hc. simpl. unfold utf8.RuneSelf in *.
  destruct (0x80 <=? b2z c) eqn:E; [lia|].
  unfold strings.upperByte.
  destruct ((0x61 <=? b2z c) && (b2z c <=? 0x7A)) eqn:E'; [|done].
  rewrite orb_true_r. intros Hscan. exfalso.
  assert (∀ t, strings.scanLower t true ≠ (true, false)) as Hno.
  { clear. induction t as [|a t IH]; simpl; [done|]. case_match; [done|]. apply IH. }
  by apply (Hno s).
Qed.

(** The first byte of [strings.ToUpper]: an ASCII first byte is mapped on
    its own, whatever follows it. *)
Lemma ToUpper_head `{Unicode} c s :
  b2z c < utf8.RuneSelf →
  ∃ t, strings.ToUpper (String c s) = String (strings.upperByte c) t.
Proof.
  intros Hc. unfold strings.ToUpper.
  destruct (strings.scanLower (String c s) false) as [[] hasLower] eqn:Hscan.
  - destruct hasLower; simpl; [eauto|].
    rewrite (scanLower_true_head c s false) by done. eauto.
  - by apply Map_ToUpper_head.
Qed.

(** [normalize] returns: the index expression in it never panics. *)
Lemma normalize_total `{Unicode} ans : ∃ r, normalize ans = Some r ∧ 0 ≤ r < 256.
Proof.
  unfold normalize. case_decide as Hans; [exists 0; split; [done|lia]|].
  pose proof (ToUpper_nonempty _ Hans) as Hne.
  destruct (strings.ToUpper (strings.TrimSpace ans)) as [|c t]; [done|].
  exists (b2z c). split; [done|apply b2z_range].
Qed.

Lemma normalize_empty `{Unicode} ans :
  strings.TrimSpace ans = EmptyString → normalize ans = Some 0.
Proof. intros Hans. unfold normalize. rewrite Hans. by case_decide. Qed.

Lemma normalize_ascii `{Unicode} ans c t :
  strings.TrimSpace ans = String c t → b2z c < utf8.RuneSelf →
  normalize ans = Some (b2z (strings.upperByte c)).
Proof.
  intros Hans Hc. unfold normalize. rewrite Hans.
  case_decide; [done|].
  destruct (ToUpper_head c t Hc) as [u ->]. done.
Qed.

Lemma EqualFold_empty_l `{Unicode} t :
  strings.EqualFold EmptyString t = bool_decide (t = EmptyString).
Proof. by destruct t. Qed.

(** ** Slices *)

Lemma index_Some {A} (a : list A) i x : index a i = Some x → 0 ≤ i < len a.
Proof.
  unfold index, len. case_decide; [|done].
  intros Hx%lookup_lt_Some. lia.
Qed.

Lemma index_is_Some {A} (a : list A) i : 0 ≤ i < len a → is_Some (index a i).
Proof.
  unfold index, len. intros Hi. case_decide; [|lia].
  apply lookup_lt_is_Some. lia.
Qed.

Lemma index_None {A} (a : list A) i : index a i = None ↔ ¬ (0 ≤ i < len a).
Proof.
  split.
  - intros Hn Hi. destruct (index_is_Some a i Hi) as [x Hx]. congruence.
  - intros Hi. destruct (index a i) eqn:E; [|done].
    apply index_Some in E. done.
Qed.

Lemma store_Some {A} (a : list A) i x :
  0 ≤ i < len a → store a i x = Some (<[Z.to_nat i := x]> a).
Proof. intros Hi. unfold store. by case_decide. Qed.

Lemma len_insert {A} (a : list A) i x : len (<[i := x]> a) = len a.
Proof. unfold len. by rewrite length_insert. Qed.

Lemma index_insert {A} (a : list A) i j x :
  0 ≤ i < len a →
  index (<[Z.to_nat i := x]> a) j = if decide (i = j) then Some x else index a j.
Proof.
  unfold index, len. intros Hi. destruct (decide (i = j)) as [<-|Hij].
  - case_decide; [|lia]. apply list_lookup_insert_eq. lia.
  - case_decide; [|done]. apply list_lookup_insert_ne. lia.
Qed.

Lemma insert_id_index {A} (a : list A) i x :
  index a i = Some x → <[Z.to_nat i := x]> a = a.
Proof.
  unfold index. case_decide; [|done]. apply list_insert_id.
Qed.

Lemma index_replicate {A} n (x : A) i :
  index (replicate n x) i = if decide (0 ≤ i < Z.of_nat n) then Some x else None.
Proof.
  unfold index. case_decide; case_decide; try lia.
  - apply lookup_replicate_2. lia.
  - apply lookup_replicate_None. lia.
  - done.
Qed.

(** ** Counting flags *)

Lemma count_true_bounds l : 0 ≤ count_true l ≤ len l.
Proof.
  unfold len. induction l as [|[] l IH]; simpl count_true; simpl length; lia.
Qed.

Lemma count_true_insert l i :
  l !! i = Some false → count_true (<[i := true]> l) = count_true l + 1.
Proof.
  revert i. induction l as [|b l IH]; intros [|i] Hi; simplify_eq/=; [lia|].
  rewrite IH by done. lia.
Qed.

Lemma count_true_replicate n : count_true (replicate n false) = 0.
Proof. induction n; simpl; lia. Qed.

Lemma count_true_all l : count_true l = len l → ∀ i b, l !! i = Some b → b = true.
Proof.
  unfold len. induction l as [|a l IH]; intros Hc [|i] b Hi; simplify_eq/=.
  - pose proof (count_true_bounds l). unfold len in *. destruct b; [done|lia].
  - pose proof (count_true_bounds l). unfold len in *.
    eapply IH; [|done]. destruct a; lia.
Qed.

Lemma all_true_count l : (∀ i b, l !! i = Some b → b = true) → count_true l = len l.
Proof.
  unfold len. induction l as [|a l IH]; intros Hall; simpl; [done|].
  rewrite IH by (intros i b Hi; apply (Hall (S i) b Hi)).
  rewrite (Hall 0%nat a eq_refl). lia.
Qed.


Lemma num_flags_count (pre l : list bool) :
  len (filter (λ i, index (pre ++ l) i = Some true) (seqZ (len pre) (len l)))
  = count_true l.
Proof.
  revert pre. induction l as [|b l IH]; intros pre.
  - unfold len at 2. simpl. by rewrite seqZ_nil.
  - assert (len (b :: l) = Z.succ (len l)) as -> by (unfold len; simpl; lia).
    rewrite seqZ_cons by (unfold len; lia). rewrite Z.pred_succ.
    rewrite filter_cons.
    assert (index (pre ++ b :: l) (len pre) = Some b) as Hb.
    { unfold index, len. case_decide; [|lia]. rewrite Nat2Z.id.
      by rewrite list_lookup_middle. }
    specialize (IH (pre ++ [b])).
    assert (len (pre ++ [b]) = Z.succ (len pre)) as Hl
      by (unfold len; rewrite length_app; simpl; lia).
    rewrite Hl, <-app_assoc in IH. simpl in IH.
    simpl count_true. rewrite <-IH.
    case_decide as Hd; rewrite Hb in Hd; destruct b; simplify_eq;
      unfold len; simpl length; lia.
Qed.

Lemma num_attempted_count s : num_attempted s = count_true (attempted s).
Proof. apply (num_flags_count []). Qed.

Lemma num_completed_count s : num_completed s = count_true (completed s).
Proof. apply (num_flags_count []). Qed.

(** ** [Answer], step by step *)

Lemma grade_total `{Unicode} answer q : ∃ res, grade answer q = Some res.
Proof.
  unfold grade. destruct (normalize_total answer) as (r & -> & _). simpl. eauto.
Qed.

Lemma Answer_empty `{Unicode} answer s :
  queue s = [] →
  Answer answer s
  = Some ((Result_zero, true, Some "quiz already completed"%string), s).
Proof. intros Hq. unfold Answer. by rewrite Hq. Qed.

(** With the front index in range of the four slices, [Answer] returns the
    grade and leaves [answered] behind. *)
Lemma Answer_cons `{Unicode} answer s idx rest :
  queue s = idx :: rest →
  0 ≤ idx < len (Questions s) →
  len (attempted s) = len (Questions s) →
  len (completed s) = len (Questions s) →
  len (results s) = len (Questions s) →
  ∃ q res,
    index (Questions s) idx = Some q ∧ grade answer q = Some res ∧
    Answer answer s
    = Some ((res, bool_decide (len (queue (answered s idx rest res)) = 0), None),
            answered s idx rest res).
Proof.
  intros Hq Hidx Ha Hc Hr.
  destruct (index_is_Some (Questions s) idx) as [q Hiq]; [done|].
  destruct (index_is_Some (attempted s) idx) as [a Hia]; [lia|].
  destruct (index_is_Some (completed s) idx) as [c Hic]; [lia|].
  destruct (grade_total answer q) as [res Hres].
  exists q, res. split; [done|]. split; [done|].
  unfold grade in Hres. unfold Answer. rewrite Hq.
  destruct (normalize answer) as [r|]; [|done]. simpl in Hres. simplify_eq.
  destruct s as [qs att com rs qu cc ac]. simpl in *. subst qu.
  rewrite Hiq. simpl.
  set (ua := if decide (r ≠ 0) then _ else _).
  set (correct := strings.EqualFold _ _). clearbody ua correct.
  unfold answered. simpl. rewrite Hia, Hic.
  destruct correct, c, a; simpl;
    rewrite ?store_Some by lia; simpl;
    rewrite ?Hia; simpl;
    rewrite ?store_Some by lia; simpl;
    rewrite ?(insert_id_index att idx true), ?(insert_id_index com idx true) by done;
    reflexivity.
Qed.

(** ** The invariant *)

Lemma incr_no_wrap x : MinInt ≤ x < MaxInt → incr x = x + 1.
Proof.
  unfold MinInt, MaxInt, incr, wrap. intros Hx.
  rewrite Z.mod_small by lia. lia.
Qed.

Lemma incr_below x n : 0 ≤ x < n → n ≤ MaxInt → incr x = x + 1.
Proof.
  intros Hx Hn. apply incr_no_wrap. unfold MinInt, MaxInt in *. lia.
Qed.

Lemma inv_NewSession qs perm :
  len qs ≤ MaxInt → perm ≡ₚ seqZ 0 (len qs) → inv (NewSession qs perm).
Proof.
  intros Hmax Hperm. split; simpl.
  - done.
  - unfold len. by rewrite length_replicate.
  - unfold len. by rewrite length_replicate.
  - unfold len. by rewrite length_replicate.
  - rewrite Hperm. apply NoDup_seqZ.
  - intros i. rewrite Hperm, elem_of_seqZ, index_replicate.
    unfold len. case_decide; split; intros; try done; lia.
  - intros i. rewrite index_replicate. by case_decide.
  - by rewrite count_true_replicate.
  - by rewrite count_true_replicate.
Qed.

(** The front of the queue of a session that satisfies the invariant. *)
Lemma inv_front s idx rest :
  inv s → queue s = idx :: rest →
  0 ≤ idx < len (Questions s) ∧ index (completed s) idx = Some false ∧ (idx ∉ rest)
  ∧ NoDup rest.
Proof.
  intros Hinv Hq.
  assert (index (completed s) idx = Some false) as Hc.
  { apply (inv_queue s Hinv). rewrite Hq. left. }
  pose proof (inv_nodup s Hinv) as Hnd. rewrite Hq in Hnd.
  apply NoDup_cons in Hnd as [??].
  pose proof (index_Some _ _ _ Hc). pose proof (inv_completed s Hinv).
  split_and!; [lia|lia|done|done|done].
Qed.

Lemma inv_answered s idx rest res :
  inv s → queue s = idx :: rest → inv (answered s idx rest res).
Proof.
  intros Hinv Hq.
  destruct (inv_front s idx rest Hinv Hq) as (Hidx & Hc & Hnotin & Hnd).
  destruct Hinv as [Hmax Ha Hco Hr _ Hqueue Hfirst Hcc Hac].
  destruct (index_is_Some (attempted s) idx) as [a Hia]; [lia|].
  assert (0 ≤ idx < len (completed s)) as Hidxc by lia.
  assert (0 ≤ idx < len (attempted s)) as Hidxa by lia.
  assert (completed s !! Z.to_nat idx = Some false) as Hlc
    by (unfold index in Hc; by rewrite decide_True in Hc by lia).
  assert (attempted s !! Z.to_nat idx = Some a) as Hla
    by (unfold index in Hia; by rewrite decide_True in Hia by lia).
  split; unfold answered; simpl.
  - done.
  - by rewrite len_insert.
  - destruct (Correct res); [by rewrite len_insert|done].
  - case_decide; [done|by rewrite len_insert].
  - destruct (Correct res); [done|].
    apply NoDup_app. split_and!; [done| |apply NoDup_singleton].
    intros x Hx ->%list_elem_of_singleton. done.
  - intros j. destruct (Correct res).
    + rewrite index_insert by done. case_decide as Hj.
      * subst j. split; [done|discriminate].
      * rewrite <-Hqueue, Hq, elem_of_cons.
        split; [by right|]. by intros [->|?].
    + by rewrite <-Hqueue, Hq, <-Permutation_cons_append.
  - intros j. rewrite index_insert by done. case_decide as Hj; [done|].
    destruct (Correct res); [|by apply Hfirst].
    rewrite index_insert by done. rewrite decide_False by done. apply Hfirst.
  - rewrite Hc, bool_decide_eq_true_2 by done. rewrite andb_true_r.
    destruct (Correct res); [|done].
    pose proof (count_true_insert _ _ Hlc) as Hins.
    pose proof (count_true_bounds (<[Z.to_nat idx:=true]> (completed s))) as Hb.
    rewrite len_insert in Hb. pose proof (count_true_bounds (completed s)).
    rewrite (incr_below _ (len (Questions s))) by lia. lia.
  - rewrite Hia. destruct a.
    + rewrite decide_True by done. by rewrite list_insert_id.
    + rewrite decide_False by done.
      pose proof (count_true_insert _ _ Hla) as Hins.
      pose proof (count_true_bounds (<[Z.to_nat idx:=true]> (attempted s))) as Hb.
      rewrite len_insert in Hb. pose proof (count_true_bounds (attempted s)).
      rewrite (incr_below _ (len (Questions s))) by lia. lia.
Qed.

(** [Answer] on a session that satisfies the invariant. *)
Lemma Answer_inv `{Unicode} answer s idx rest :
  inv s → queue s = idx :: rest →
  ∃ q res,
    index (Questions s) idx = Some q ∧ grade answer q = Some res ∧
    Answer answer s
    = Some ((res, bool_decide (len (queue (answered s idx rest res)) = 0), None),
            answered s idx rest res)
    ∧ inv (answered s idx rest res).
Proof.
  intros Hinv Hq.
  destruct (inv_front s idx rest Hinv Hq) as (Hidx & _).
  destruct (Answer_cons answer s idx rest Hq Hidx) as (q & res & Hiq & Hg & HA);
    [apply Hinv..|].
  exists q, res. split_and!; [done..|]. by apply inv_answered.
Qed.

(** ** [BringToFront], step by step *)

Lemma set_queue_id s : set_queue s (queue s) = s.
Proof. by destruct s. Qed.

Lemma find_pos_spec q target i :
  ((target ∉ q) ∧ find_pos q target i (-1) = -1)
  ∨ (∃ l1 l2, q = l1 ++ target :: l2 ∧ (target ∉ l1)
              ∧ find_pos q target i (-1) = i + len l1).
Proof.
  revert i. induction q as [|v q IH]; intros i; simpl.
  - left. split; [apply not_elem_of_nil|done].
  - case_decide as Hv.
    + subst v. right. exists [], q. split_and!; [done|apply not_elem_of_nil|].
      unfold len. simpl. lia.
    + destruct (IH (i + 1)) as [[Hnot Hpos]|(l1 & l2 & -> & Hnot & Hpos)].
      * left. split; [|done]. rewrite not_elem_of_cons. naive_solver.
      * right. exists (v :: l1), l2. split_and!; [done| |].
        -- rewrite not_elem_of_cons. naive_solver.
        -- rewrite Hpos. unfold len. simpl. lia.
Qed.

(** [BringToFront] returns for every session and every target; it replaces
    the queue and nothing else.  When [completed[target]] is [false] the
    first [target] in the queue moves to the front, or [target] is put in
    front when the queue does not hold it; in every other case the queue
    stays as it is. *)
Lemma BringToFront_spec target s :
  ∃ q', BringToFront target s = Some ((), set_queue s q') ∧
    match index (completed s) target with
    | Some false =>
      ((target ∉ queue s) ∧ q' = target :: queue s)
      ∨ (∃ l1 l2, queue s = l1 ++ target :: l2 ∧ (target ∉ l1)
                  ∧ q' = target :: l1 ++ l2)
    | _ => q' = queue s
    end.
Proof.
  unfold BringToFront. case_decide as Hrange.
  - exists (queue s). rewrite set_queue_id. split; [done|].
    destruct (index (completed s) target) as [c|] eqn:Hc; [|done].
    apply index_Some in Hc. lia.
  - destruct (index_is_Some (completed s) target) as [c Hc]; [lia|].
    rewrite Hc. simpl. destruct c.
    { exists (queue s). by rewrite set_queue_id. }
    destruct (find_pos_spec (queue s) target 0)
      as [[Hnot Hpos]|(l1 & l2 & Hq & Hnot & Hpos)]; rewrite Hpos.
    + rewrite decide_False by lia. rewrite decide_True by done.
      exists (target :: queue s). split; [done|]. by left.
    + case_decide as H0.
      * exists (queue s). rewrite set_queue_id. split; [done|]. right.
        destruct l1; [|unfold len in H0; simpl in H0; lia].
        exists [], l2. by rewrite Hq.
      * rewrite decide_False by (unfold len; lia).
        unfold slice_to, slice_from.
        assert (len (queue s) = len l1 + 1 + len l2) as Hlen.
        { rewrite Hq. unfold len. rewrite length_app. simpl. lia. }
        rewrite !decide_True by (unfold len in *; lia). simpl.
        assert (take (Z.to_nat (0 + len l1)) (queue s) = l1) as ->.
        { rewrite Hq. apply take_app_length'. unfold len. lia. }
        assert (drop (Z.to_nat (0 + len l1 + 1)) (queue s) = l2) as ->.
        { rewrite Hq. change (l1 ++ target :: l2) with (l1 ++ [target] ++ l2).
          rewrite (assoc_L (++)).
          apply drop_app_length'. rewrite length_app. unfold len. simpl. lia. }
        exists (target :: l1 ++ l2). split; [done|].
        right. exists l1, l2. by split_and!.
Qed.

Lemma BringToFront_noop target s :
  index (completed s) target ≠ Some false → BringToFront target s = Some ((), s).
Proof.
  intros Hc. destruct (BringToFront_spec target s) as (q' & -> & Hq').
  destruct (index (completed s) target) as [[]|]; [| done |]; subst q';
    by rewrite set_queue_id.
Qed.

Lemma BringToFront_inv target s s' :
  inv s → BringToFront target s = Some ((), s') →
  inv s' ∧ ∃ q', s' = set_queue s q' ∧ q' ≡ₚ queue s.
Proof.
  intros Hinv HB. destruct (BringToFront_spec target s) as (q' & HB' & Hq').
  rewrite HB in HB'. injection HB' as ->.
  assert (q' ≡ₚ queue s) as Hperm.
  { destruct (index (completed s) target) as [[]|] eqn:Hc; try by subst.
    destruct Hq' as [[Hnot _]|(l1 & l2 & -> & _ & ->)].
    - exfalso. apply Hnot. by apply (inv_queue s Hinv).
    - by rewrite Permutation_middle. }
  split; [|by exists q'].
  destruct Hinv. split; simpl; try done.
  - by rewrite Hperm.
  - intros i. rewrite Hperm. auto.
Qed.

(** ** The queries leave the session as it is *)

Lemma Current_query : query Current.
Proof.
  intros s r s'. unfold Current. destruct (queue s); intros; by simplify_option_eq.
Qed.

Lemma Progress_query : query Progress.
Proof. intros s r s'. unfold Progress. by intros; simplify_eq. Qed.

Lemma AttemptedCount_query : query AttemptedCount.
Proof. intros s r s'. unfold AttemptedCount. by intros; simplify_eq. Qed.

Lemma Results_query : query Results.
Proof. intros s r s'. unfold Results. by intros; simplify_eq. Qed.

Lemma Score_query : query Score.
Proof. intros s r s'. unfold Score. by intros; simplify_option_eq. Qed.

Lemma Completed_query : query Completed.
Proof. intros s r s'. unfold Completed. by intros; simplify_eq. Qed.

(** A call is an [Answer], a [BringToFront], or leaves the session as it
    is. *)
Lemma step_cases `{Unicode} s s' :
  step s s' →
  (∃ answer r, Answer answer s = Some (r, s'))
  ∨ (∃ target, BringToFront target s = Some ((), s'))
  ∨ s' = s.
Proof.
  intros [answer s0 r s0' HA|target s0 s0' HB|s0 r s0' Hm|s0 r s0' Hm|s0 r s0' Hm
          |s0 r s0' Hm|s0 r s0' Hm|s0 r s0' Hm].
  - left. eauto.
  - right. left. eauto.
  - right. right. by apply (Current_query s0 r).
  - right. right. by apply (Progress_query s0 r).
  - right. right. by apply (AttemptedCount_query s0 r).
  - right. right. by apply (Results_query s0 r).
  - right. right. by apply (Score_query s0 r).
  - right. right. by apply (Completed_query s0 r).
Qed.

(** An [Answer] that returns leaves the session as it is, on an empty
    queue, or leaves [answered] behind. *)
Lemma Answer_cases `{Unicode} answer s r s' :
  inv s → Answer answer s = Some (r, s') →
  (queue s = [] ∧ s' = s)
  ∨ (∃ idx rest res, queue s = idx :: rest ∧ s' = answered s idx rest res).
Proof.
  intros Hinv HA. destruct (queue s) as [|idx rest] eqn:Hq.
  - left. rewrite Answer_empty in HA by done. by simplify_eq.
  - right. destruct (Answer_inv answer s idx rest Hinv Hq) as (q & res & _ & _ & HA' & _).
    rewrite HA in HA'. simplify_eq. by exists idx, rest, res.
Qed.

Lemma step_inv `{Unicode} s s' : inv s → step s s' → inv s'.
Proof.
  intros Hinv [(answer & r & HA)|[(target & HB)| ->]]%step_cases; [| |done].
  - destruct (Answer_cases answer s r s' Hinv HA)
      as [[_ ->]|(idx & rest & res & Hq & ->)]; [done|].
    by apply inv_answered.
  - by destruct (BringToFront_inv target s s' Hinv HB).
Qed.

Lemma steps_inv `{Unicode} s s' : inv s → rtc step s s' → inv s'.
Proof. intros Hinv Hsteps. induction Hsteps; eauto using step_inv. Qed.

Lemma reachable_inv `{Unicode} s : reachable s → inv s.
Proof.
  intros (qs & perm & Hmax & Hperm & Hsteps).
  eapply steps_inv; [|done]. by apply inv_NewSession.
Qed.

Lemma reachable_step `{Unicode} s s' : reachable s → step s s' → reachable s'.
Proof.
  intros (qs & perm & Hmax & Hperm & Hsteps) Hstep.
  exists qs, perm. split_and!; [done..|]. eapply rtc_r; done.
Qed.

Lemma reachable_steps `{Unicode} s s' : reachable s → rtc step s s' → reachable s'.
Proof. intros Hr Hsteps. induction Hsteps; eauto using reachable_step. Qed.

Lemma reachable_NewSession `{Unicode} qs perm :
  len qs ≤ MaxInt → perm ≡ₚ seqZ 0 (len qs) → reachable (NewSession qs perm).
Proof. intros. by exists qs, perm. Qed.

(** The example sessions are reachable. *)
Lemma reachable_two_questions : reachable (H := ascii_only) two_questions.
Proof.
  apply reachable_NewSession.
  - vm_compute. discriminate.
  - apply perm_swap.
Defined.

Lemma steps_after_wrong_answer :
  rtc (step (H := ascii_only)) two_questions after_wrong_answer.
Proof.
  eapply rtc_l; [|apply rtc_refl].
  eapply (step_Answer "C"). reflexivity.
Defined.

Lemma steps_finished_session :
  rtc (step (H := ascii_only)) after_wrong_answer finished_session.
Proof.
  eapply rtc_l; [eapply (step_Answer "a"); reflexivity|].
  eapply rtc_l; [eapply (step_Answer " b"); reflexivity|].
  apply rtc_refl.
Defined.

Lemma reachable_after_wrong_answer : reachable (H := ascii_only) after_wrong_answer.
Proof.
  eapply reachable_steps; [apply reachable_two_questions|].
  apply steps_after_wrong_answer.
Defined.

Lemma reachable_finished_session : reachable (H := ascii_only) finished_session.
Proof.
  eapply reachable_steps; [apply reachable_after_wrong_answer|].
  apply steps_finished_session.
Defined.


(** ** The properties of the specification *)

Lemma inv_partition s i :
  inv s →
  (i ∈ queue s ∨ index (completed s) i = Some true) ↔ 0 ≤ i < len (Questions s).
Proof.
  intros Hinv. pose proof (inv_completed s Hinv) as Hlen. split.
  - intros [Hi%(inv_queue s Hinv)|Hi]; apply index_Some in Hi; lia.
  - intros Hi. destruct (index_is_Some (completed s) i) as [[] Hc]; [lia|by right|].
    left. by apply (inv_queue s Hinv).
Qed.

Lemma inv_finished s :
  inv s → queue s = [] → completedCount s = len (Questions s).
Proof.
  intros Hinv Hq. rewrite (inv_completedCount s Hinv), <-(inv_completed s Hinv).
  apply all_true_count. intros i b Hi.
  assert (index (completed s) (Z.of_nat i) = Some b) as Hb.
  { unfold index. rewrite decide_True by lia. by rewrite Nat2Z.id. }
  destruct b; [done|]. apply (inv_queue s Hinv) in Hb.
  rewrite Hq in Hb. by apply elem_of_nil in Hb.
Qed.

(** C1. For every session reachable from [NewSession] by any sequence of
    calls: the queue holds no index twice; no index in the queue is
    completed; an index is queued or completed exactly when it is one of
    [0 .. len(questions)-1], so that the queue followed by the completed
    indices is a permutation of all indices; and when the queue is empty,
    [completedCount] equals [len(questions)]. *)
Theorem C1_queue_and_completed_partition `{Unicode} s :
  reachable s →
  NoDup (queue s)
  ∧ (∀ i, i ∈ queue s → index (completed s) i = Some false)
  ∧ (∀ i, (i ∈ queue s ∨ index (completed s) i = Some true)
          ↔ 0 ≤ i < len (Questions s))
  ∧ queue s ++ filter (λ i, index (completed s) i = Some true)
                      (seqZ 0 (len (Questions s)))
    ≡ₚ seqZ 0 (len (Questions s))
  ∧ (queue s = [] → completedCount s = len (Questions s)).
Proof.
  intros Hinv%reachable_inv. split_and!.
  - apply Hinv.
  - intros i. apply (inv_queue s Hinv).
  - intros i. by apply inv_partition.
  - apply NoDup_Permutation.
    + apply NoDup_app. split_and!.
      * apply Hinv.
      * intros i Hq%(inv_queue s Hinv) [Hc _]%list_elem_of_filter. congruence.
      * apply NoDup_filter, NoDup_seqZ.
    + apply NoDup_seqZ.
    + intros i. rewrite elem_of_app, list_elem_of_filter, elem_of_seqZ.
      rewrite <-(inv_partition s i Hinv). tauto.
  - by apply inv_finished.
Qed.

(** C1 on the session of two questions before any answer. *)
Lemma C1_witness :
  let s := two_questions in
  NoDup (queue s)
  ∧ (∀ i, i ∈ queue s → index (completed s) i = Some false)
  ∧ (∀ i, (i ∈ queue s ∨ index (completed s) i = Some true)
          ↔ 0 ≤ i < len (Questions s))
  ∧ queue s ++ filter (λ i, index (completed s) i = Some true)
                      (seqZ 0 (len (Questions s)))
    ≡ₚ seqZ 0 (len (Questions s))
  ∧ (queue s = [] → completedCount s = len (Questions s)).
Proof.
  apply (C1_queue_and_completed_partition (H := ascii_only)).
  apply reachable_two_questions.
Defined.

(** C2. Scenario B: one question whose answer key is "B", queue [[0]].
    [Answer("A")] returns [{userAnswer "A", correct false}], not finished,
    and index 0 is back in the queue; [Answer("B")] then returns
    [{userAnswer "B", correct true}], finished; afterwards [results[0]] is
    still [{"A", false}], [completedCount] is 1 and [Score()] is (0, 1). *)
Theorem C2_scenario_B `{Unicode} (domain : Z) (prompt : string)
    (options : gmap string string) :
  let q := {| Question.Domain := domain; Question.Prompt := prompt;
              Question.Options := options; Question.Answer := "B" |} in
  ∃ s1 s2,
    Answer "A" (NewSession [q] [0])
    = Some (({| UserAnswer := "A"; Correct := false |}, false, None), s1)
    ∧ queue s1 = [0]
    ∧ Answer "B" s1
      = Some (({| UserAnswer := "B"; Correct := true |}, true, None), s2)
    ∧ index (results s2) 0 = Some {| UserAnswer := "A"; Correct := false |}
    ∧ completedCount s2 = 1
    ∧ Score s2 = Some ((0, 1), s2).
Proof.
  intros q. eexists. eexists. split_and!.
  - reflexivity.
  - reflexivity.
  - reflexivity.
  - reflexivity.
  - reflexivity.
  - reflexivity.
Qed.

(** [Answer] returns on every reachable session, for every input. *)
Lemma Answer_returns `{Unicode} answer s :
  inv s →
  ∃ res fin err s',
    Answer answer s = Some ((res, fin, err), s')
    ∧ (err ≠ None ↔ queue s = [])
    ∧ (queue s = [] → s' = s).
Proof.
  intros Hinv. destruct (queue s) as [|idx rest] eqn:Hq.
  - rewrite Answer_empty by done. do 4 eexists. split_and!; done.
  - destruct (Answer_inv answer s idx rest Hinv Hq) as (q & res & _ & _ & -> & _).
    do 4 eexists. split_and!; [done| |done]. split; done.
Qed.

(** C4. [Answer] returns an error exactly when the queue is empty at the
    call, and it then leaves the whole session as it was; with a queue that
    is not empty it returns, for every input string, without an error. *)
Theorem C4_Answer_error_iff_queue_empty `{Unicode} s answer :
  reachable s →
  ∃ res fin err s',
    Answer answer s = Some ((res, fin, err), s')
    ∧ (err ≠ None ↔ queue s = [])
    ∧ (queue s = [] → s' = s).
Proof. intros Hinv%reachable_inv. by apply Answer_returns. Qed.

(** C4 on the session of two questions, for the input "b". *)
Lemma C4_witness :
  ∃ res fin err s',
    Answer (H := ascii_only) "b" two_questions
    = Some ((res, fin, err), s')
    ∧ (err ≠ None ↔ queue two_questions = [])
    ∧ (queue two_questions = []
       → s' = two_questions).
Proof.
  apply (C4_Answer_error_iff_queue_empty (H := ascii_only)).
  apply reachable_two_questions.
Defined.

(** C9. For every target, and on every session, [BringToFront] returns and
    leaves [attempted], [completed], [results], [attemptedCount],
    [completedCount] and the questions exactly as they were; on a reachable
    session the queue after the call is a permutation of the queue before
    it. *)
Theorem C9_BringToFront_frame `{Unicode} target s :
  ∃ s',
    BringToFront target s = Some ((), s')
    ∧ attempted s' = attempted s
    ∧ completed s' = completed s
    ∧ results s' = results s
    ∧ attemptedCount s' = attemptedCount s
    ∧ completedCount s' = completedCount s
    ∧ Questions s' = Questions s
    ∧ (reachable s → queue s' ≡ₚ queue s).
Proof.
  destruct (BringToFront_spec target s) as (q' & HB & _).
  exists (set_queue s q'). split_and!; try done.
  intros Hinv%reachable_inv.
  destruct (BringToFront_inv target s _ Hinv HB) as (_ & q'' & Heq & Hperm).
  assert (q' = q'') as -> by (by apply (f_equal queue) in Heq).
  done.
Qed.

(** A session whose queue is empty is left as it is by every call. *)
Lemma finished_BringToFront target s :
  inv s → queue s = [] → BringToFront target s = Some ((), s).
Proof.
  intros Hinv Hq. apply BringToFront_noop.
  intros Hc%(inv_queue s Hinv). rewrite Hq in Hc. by apply elem_of_nil in Hc.
Qed.

Lemma finished_step `{Unicode} s s' :
  inv s → queue s = [] → step s s' → s' = s.
Proof.
  intros Hinv Hq [(answer & r & HA)|[(target & HB)| ->]]%step_cases; [| |done].
  - rewrite Answer_empty in HA by done. by simplify_eq.
  - rewrite finished_BringToFront in HB by done. by simplify_eq.
Qed.

Lemma finished_steps `{Unicode} s s' :
  inv s → queue s = [] → rtc step s s' → s' = s.
Proof.
  intros Hinv Hq Hsteps. induction Hsteps as [|s t u Hstep _ IH]; [done|].
  apply finished_step in Hstep; [|done..]. subst t. by apply IH.
Qed.

(** C10. Being finished is absorbing: once the queue of a reachable session
    is empty, every sequence of calls leaves the session as it is, so
    [Completed()] stays true; [Answer] returns its error and [BringToFront]
    changes nothing. *)
Theorem C10_finished_is_absorbing `{Unicode} s s' :
  reachable s → queue s = [] → rtc step s s' →
  s' = s
  ∧ Completed s' = Some (true, s')
  ∧ (∀ answer,
       Answer answer s'
       = Some ((Result_zero, true, Some "quiz already completed"%string), s'))
  ∧ (∀ target, BringToFront target s' = Some ((), s')).
Proof.
  intros Hinv%reachable_inv Hq Hsteps.
  pose proof (finished_steps s s' Hinv Hq Hsteps) as ->.
  split_and!.
  - done.
  - unfold Completed. by rewrite Hq.
  - intros answer. by apply Answer_empty.
  - intros target. by apply finished_BringToFront.
Qed.

(** C10 on the finished session, followed by an [Answer] and a
    [BringToFront]. *)
Lemma C10_witness :
  finished_session = finished_session
  ∧ Completed finished_session = Some (true, finished_session)
  ∧ (∀ answer,
       Answer (H := ascii_only) answer finished_session
       = Some ((Result_zero, true, Some "quiz already completed"%string),
               finished_session))
  ∧ (∀ target, BringToFront target finished_session = Some ((), finished_session)).
Proof.
  apply (C10_finished_is_absorbing (H := ascii_only) finished_session).
  - apply reachable_finished_session.
  - reflexivity.
  - eapply rtc_l; [eapply (step_Answer "A"); reflexivity|].
    eapply rtc_l; [eapply (step_BringToFront 0); reflexivity|].
    apply rtc_refl.
Defined.

(** ** What a call never undoes: proofs *)

Lemma count_true_insert_le l i : count_true l ≤ count_true (<[i := true]> l).
Proof.
  revert i. induction l as [|b l IH]; intros [|i]; simpl; [lia..| |].
  - destruct b; lia.
  - specialize (IH i). lia.
Qed.

Lemma keeps_refl s : keeps s s.
Proof. unfold keeps. split_and!; [done|done|lia|lia]. Qed.

Lemma keeps_set_queue s q : keeps s (set_queue s q).
Proof. unfold keeps. simpl. split_and!; [done|done|lia|lia]. Qed.

Lemma keeps_trans s t u : keeps s t → keeps t u → keeps s u.
Proof.
  intros (Ha & Hc & Hac & Hcc) (Ha' & Hc' & Hac' & Hcc'). unfold keeps. split_and!.
  - intros i Hi. destruct (Ha i Hi) as [Hat Hrt].
    destruct (Ha' i Hat) as [Hau Hru]. split; [done|congruence].
  - intros i Hi. by apply Hc', Hc.
  - lia.
  - lia.
Qed.

Lemma keeps_answered s idx rest res :
  inv s → queue s = idx :: rest → keeps s (answered s idx rest res).
Proof.
  intros Hinv Hq.
  pose proof (inv_answered s idx rest res Hinv Hq) as Hinv'.
  destruct (inv_front s idx rest Hinv Hq) as (Hidx & Hc & _).
  pose proof (inv_attempted s Hinv) as Hla.
  pose proof (inv_completed s Hinv) as Hlc.
  pose proof (inv_results s Hinv) as Hlr.
  unfold keeps. split_and!.
  - intros i Hi. split.
    + simpl. rewrite index_insert by lia. by case_decide.
    + simpl. case_decide as Ha; [done|].
      rewrite index_insert by lia. rewrite decide_False; [done|].
      intros ->. done.
  - intros i Hi. simpl. destruct (Correct res); [|done].
    rewrite index_insert by lia. by case_decide.
  - rewrite (inv_attemptedCount _ Hinv'), (inv_attemptedCount _ Hinv). simpl.
    apply count_true_insert_le.
  - rewrite (inv_completedCount _ Hinv'), (inv_completedCount _ Hinv). simpl.
    destruct (Correct res); [apply count_true_insert_le|lia].
Qed.

Lemma keeps_step `{Unicode} s s' : inv s → step s s' → keeps s s'.
Proof.
  intros Hinv [(answer & r & HA)|[(target & HB)| ->]]%step_cases.
  - destruct (Answer_cases answer s r s' Hinv HA)
      as [[_ ->]|(idx & rest & res & Hq & ->)]; [apply keeps_refl|].
    by apply keeps_answered.
  - destruct (BringToFront_spec target s) as (q' & HB' & _).
    rewrite HB in HB'. injection HB' as ->. apply keeps_set_queue.
  - apply keeps_refl.
Qed.

Lemma keeps_steps `{Unicode} s s' : inv s → rtc step s s' → keeps s s'.
Proof.
  intros Hinv Hsteps. induction Hsteps as [|s t u Hstep _ IH]; [apply keeps_refl|].
  eapply keeps_trans; [by apply keeps_step|]. apply IH. by eapply step_inv.
Qed.

(** C3. Across any sequence of calls on a reachable session: once
    [attempted[i]] is true it stays true and [results[i]] is never changed
    again, whatever the later answers to question [i] are; [completed[i]]
    stays true once it is true; and [attemptedCount] and [completedCount]
    never decrease. *)
Theorem C3_first_attempt_is_final `{Unicode} s s' :
  reachable s → rtc step s s' →
  (∀ i, index (attempted s) i = Some true →
        index (attempted s') i = Some true
        ∧ index (results s') i = index (results s) i)
  ∧ (∀ i, index (completed s) i = Some true → index (completed s') i = Some true)
  ∧ attemptedCount s ≤ attemptedCount s'
  ∧ completedCount s ≤ completedCount s'.
Proof. intros Hinv%reachable_inv Hsteps. by apply keeps_steps. Qed.

(** C3 from the session after a wrong answer to question 1 to the finished
    session, in which question 1 has been answered right. *)
Lemma C3_witness :
  (∀ i, index (attempted after_wrong_answer) i = Some true →
        index (attempted finished_session) i = Some true
        ∧ index (results finished_session) i = index (results after_wrong_answer) i)
  ∧ (∀ i, index (completed after_wrong_answer) i = Some true →
          index (completed finished_session) i = Some true)
  ∧ attemptedCount after_wrong_answer ≤ attemptedCount finished_session
  ∧ completedCount after_wrong_answer ≤ completedCount finished_session.
Proof.
  apply (C3_first_attempt_is_final (H := ascii_only)).
  - apply reachable_after_wrong_answer.
  - apply steps_finished_session.
Defined.

(** C5. On a reachable session, [BringToFront(target)] changes nothing
    when [target] is out of range or [completed[target]] is true.
    Otherwise [target] is in the queue, once; the call moves it to the
    front and keeps the other indices in the order they had, and
    [Current()] then returns [target]. *)
Theorem C5_BringToFront `{Unicode} s target :
  reachable s →
  (target < 0 ∨ len (Questions s) ≤ target ∨ index (completed s) target = Some true
   → BringToFront target s = Some ((), s))
  ∧ (0 ≤ target < len (Questions s) → index (completed s) target = Some false →
     ∃ l1 l2 q,
       queue s = l1 ++ target :: l2 ∧ (target ∉ l1) ∧ (target ∉ l2)
       ∧ BringToFront target s = Some ((), set_queue s (target :: l1 ++ l2))
       ∧ Current (set_queue s (target :: l1 ++ l2))
         = Some ((target, q, true), set_queue s (target :: l1 ++ l2))).
Proof.
  intros Hinv%reachable_inv.
  destruct (BringToFront_spec target s) as (q' & HB & Hq').
  pose proof (inv_completed s Hinv) as Hlc.
  split.
  - intros Hnoop. apply BringToFront_noop. intros Hc.
    pose proof (index_Some _ _ _ Hc).
    destruct Hnoop as [?|[?|?]]; [lia|lia|congruence].
  - intros Hrange Hc. rewrite Hc in Hq'.
    destruct Hq' as [[Hnot _]|(l1 & l2 & Hq & Hnot1 & ->)].
    { exfalso. apply Hnot. by apply (inv_queue s Hinv). }
    destruct (index_is_Some (Questions s) target Hrange) as [q Hiq].
    exists l1, l2, q. split_and!; [done|done| |done|].
    + pose proof (inv_nodup s Hinv) as Hnd. rewrite Hq in Hnd.
      apply NoDup_app in Hnd as (_ & _ & Hnd).
      by apply NoDup_cons in Hnd as [? _].
    + unfold Current. simpl. by rewrite Hiq.
Qed.

(** C5 on the session of two questions, for the index at the back. *)
Lemma C5_witness :
  (0 < 0 ∨ len (Questions two_questions) ≤ 0
   ∨ index (completed two_questions) 0 = Some true
   → BringToFront 0 two_questions = Some ((), two_questions))
  ∧ (0 ≤ 0 < len (Questions two_questions) →
     index (completed two_questions) 0 = Some false →
     ∃ l1 l2 q,
       queue two_questions = l1 ++ 0 :: l2 ∧ (0 ∉ l1) ∧ (0 ∉ l2)
       ∧ BringToFront 0 two_questions
         = Some ((), set_queue two_questions (0 :: l1 ++ l2))
       ∧ Current (set_queue two_questions (0 :: l1 ++ l2))
         = Some ((0, q, true), set_queue two_questions (0 :: l1 ++ l2))).
Proof.
  apply (C5_BringToFront (H := ascii_only)). apply reachable_two_questions.
Defined.

(** Scenario C of the specification: two questions, queue [[1; 0]]. *)
Example BringToFront_front_is_noop :
  BringToFront 1 two_questions = Some ((), two_questions).
Proof. reflexivity. Qed.

Example BringToFront_back_moves_to_front :
  queue <$> (snd <$> BringToFront 0 two_questions) = Some [0; 1].
Proof. reflexivity. Qed.

(** ** The grade *)

Lemma grade_empty `{Unicode} answer q :
  strings.TrimSpace answer = EmptyString →
  grade answer q
  = Some {| UserAnswer := EmptyString;
            Correct := bool_decide (Question.Answer q = EmptyString) |}.
Proof.
  intros Hans. unfold grade. rewrite normalize_empty by done. simpl.
  by rewrite Hans, EqualFold_empty_l.
Qed.

Lemma grade_ascii `{Unicode} answer q c t :
  strings.TrimSpace answer = String c t → 0 < b2z c < utf8.RuneSelf →
  grade answer q
  = Some {| UserAnswer := String (strings.upperByte c) EmptyString;
            Correct := strings.EqualFold (String c t) (Question.Answer q) |}.
Proof.
  intros Hans Hc. unfold grade. rewrite (normalize_ascii answer c t) by (done || lia).
  simpl. rewrite Hans. f_equal. f_equal.
  pose proof (upperByte_ascii c (proj2 Hc)) as Hu.
  assert (b2z (strings.upperByte c) ≠ 0) as Hne.
  { unfold strings.upperByte. pose proof (b2z_range c).
    destruct ((0x61 <=? b2z c) && (b2z c <=? 0x7A)) eqn:E; [|lia].
    rewrite b2z_z2b; lia. }
  rewrite decide_True by done. unfold utf8.RuneSelf in Hu.
  rewrite EncodeRune_ascii by lia. by rewrite z2b_b2z.
Qed.

(** C6, as amended. On a reachable session with a queue that is not empty,
    [Answer] with an input that is empty or trims to the empty string
    returns a [Result] whose [userAnswer] is the empty string; its [correct]
    is false for every stored answer key but the empty one, which the empty
    submission matches. *)
Theorem C6_empty_submission `{Unicode} s answer idx rest :
  reachable s → queue s = idx :: rest →
  strings.TrimSpace answer = EmptyString →
  ∃ q fin s',
    index (Questions s) idx = Some q
    ∧ Answer answer s
      = Some (({| UserAnswer := EmptyString;
                  Correct := bool_decide (Question.Answer q = EmptyString) |},
               fin, None), s').
Proof.
  intros Hinv%reachable_inv Hq Hans.
  destruct (Answer_inv answer s idx rest Hinv Hq) as (q & res & Hiq & Hg & HA & _).
  rewrite grade_empty in Hg by done. simplify_eq.
  exists q. do 2 eexists. split; done.
Qed.

(** C6 on the session of two questions, for an input of two spaces. *)
Lemma C6_witness :
  ∃ q fin s',
    index (Questions two_questions) 1 = Some q
    ∧ Answer (H := ascii_only) "  " two_questions
      = Some (({| UserAnswer := EmptyString;
                  Correct := bool_decide (Question.Answer q = EmptyString) |},
               fin, None), s').
Proof.
  apply (C6_empty_submission (H := ascii_only) _ "  " 1 [0]).
  - apply reachable_two_questions.
  - reflexivity.
  - reflexivity.
Defined.

(** C6 as stated fails: against a question whose stored answer key is the
    empty string, the empty submission is graded correct. *)
Lemma C6_counterexample :
  ¬ (∀ (U : Unicode) s answer idx rest,
       reachable s → queue s = idx :: rest →
       strings.TrimSpace answer = EmptyString →
       ∃ fin err s',
         Answer answer s
         = Some (({| UserAnswer := EmptyString; Correct := false |}, fin, err), s')).
Proof.
  intros Hclaim.
  destruct (Hclaim ascii_only (NewSession [question EmptyString] [0]) EmptyString 0 [])
    as (fin & err & s' & HA).
  - apply reachable_NewSession; [vm_compute; discriminate|reflexivity].
  - reflexivity.
  - reflexivity.
  - vm_compute in HA. discriminate.
Qed.

(** ** Case-insensitive equality of ASCII strings *)

Lemma lor_ascii a b : 0 ≤ a < 128 → 0 ≤ b < 128 → 0 ≤ Z.lor a b < 128.
Proof.
  intros Ha Hb. split; [apply Z.lor_nonneg; lia|].
  destruct (decide (Z.lor a b = 0)) as [->|Hne]; [lia|].
  assert (0 < Z.lor a b) as Hpos.
  { assert (0 ≤ Z.lor a b) by (apply Z.lor_nonneg; lia). lia. }
  change 128 with (2 ^ 7). apply Z.log2_lt_pow2; [done|].
  rewrite Z.log2_lor by lia.
  assert (∀ x, 0 ≤ x < 128 → Z.log2 x < 7) as Hlog.
  { intros x Hx. destruct (decide (x = 0)) as [->|]; [done|].
    apply Z.log2_lt_pow2; lia. }
  pose proof (Hlog a Ha). pose proof (Hlog b Hb). lia.
Qed.

Lemma b2z_inj c d : b2z c = b2z d → c = d.
Proof. intros Heq. by rewrite <-(z2b_b2z c), <-(z2b_b2z d), Heq. Qed.

Lemma b2z_lowerByte c :
  b2z (lowerByte c)
  = if (0x41 <=? b2z c) && (b2z c <=? 0x5A) then b2z c + 0x20 else b2z c.
Proof.
  unfold lowerByte. destruct ((0x41 <=? b2z c) && (b2z c <=? 0x5A)) eqn:E; [|done].
  rewrite b2z_z2b; lia.
Qed.

(** On ASCII strings [strings.EqualFold] is equality up to the case of the
    letters, of the whole strings. *)
Lemma EqualFold_ascii `{Unicode} s t :
  is_ascii s = true → is_ascii t = true →
  strings.EqualFold s t = equal_ignoring_case s t.
Proof.
  unfold equal_ignoring_case.
  revert t. induction s as [|c s IH]; intros [|d t] Hs Ht; simpl in *.
  - done.
  - done.
  - done.
  - apply andb_true_iff in Hs as [Hc Hs]. apply andb_true_iff in Ht as [Hd Ht].
    unfold utf8.RuneSelf in *.
    pose proof (b2z_range c). pose proof (b2z_range d).
    pose proof (lor_ascii (b2z c) (b2z d)) as Hlor.
    destruct (0x80 <=? Z.lor (b2z c) (b2z d)) eqn:E; [lia|].
    specialize (IH t Hs Ht).
    assert (lowerByte c = lowerByte d ↔
            b2z d = b2z c
            ∨ (0x41 ≤ Z.min (b2z c) (b2z d) ≤ 0x5A
               ∧ Z.max (b2z c) (b2z d) = Z.min (b2z c) (b2z d) + 0x20)) as Hfold.
    { split.
      - intros Heq%(f_equal b2z). rewrite !b2z_lowerByte in Heq.
        repeat case_match; lia.
      - intros Hcase. apply b2z_inj. rewrite !b2z_lowerByte.
        repeat case_match; lia. }
    destruct (b2z d =? b2z c) eqn:Eeq.
    + rewrite IH. apply bool_decide_ext. split.
      * intros ->. f_equal. apply Hfold. left. lia.
      * by intros [= _ ->].
    + destruct (b2z d <? b2z c) eqn:Elt.
      * destruct ((0x41 <=? b2z d) && (b2z d <=? 0x5A)
                  && (b2z c =? b2z d + 0x61 - 0x41)) eqn:Ecase.
        -- rewrite IH. apply bool_decide_ext. split.
           ++ intros ->. f_equal. apply Hfold. right. lia.
           ++ by intros [= _ ->].
        -- symmetry. apply bool_decide_eq_false_2. intros [= Hl _].
           apply Hfold in Hl. lia.
      * destruct ((0x41 <=? b2z c) && (b2z c <=? 0x5A)
                  && (b2z d =? b2z c + 0x61 - 0x41)) eqn:Ecase.
        -- rewrite IH. apply bool_decide_ext. split.
           ++ intros ->. f_equal. apply Hfold. right. lia.
           ++ by intros [= _ ->].
        -- symmetry. apply bool_decide_eq_false_2. intros [= Hl _].
           apply Hfold in Hl. lia.
Qed.

Lemma grade_Correct `{Unicode} answer q res :
  grade answer q = Some res →
  Correct res = strings.EqualFold (strings.TrimSpace answer) (Question.Answer q).
Proof.
  unfold grade. destruct (normalize answer); [|done]. simpl. by intros [= <-].
Qed.

(** C7, as amended. On a reachable session with a queue that is not empty,
    for every input that is not empty after trimming: [correct] is
    [strings.EqualFold] of the whole trimmed input and the stored answer
    key of the question taken from the queue, which for ASCII strings is
    their equality up to the case of the letters; and when the trimmed
    input starts with an ASCII character other than NUL, [userAnswer] is
    that character in upper case. *)
Theorem C7_graded_answer `{Unicode} s answer idx rest c t :
  reachable s → queue s = idx :: rest →
  strings.TrimSpace answer = String c t →
  ∃ q res fin s',
    index (Questions s) idx = Some q
    ∧ Answer answer s = Some ((res, fin, None), s')
    ∧ Correct res = strings.EqualFold (String c t) (Question.Answer q)
    ∧ (is_ascii (String c t) = true → is_ascii (Question.Answer q) = true →
       Correct res = equal_ignoring_case (String c t) (Question.Answer q))
    ∧ (0 < b2z c < utf8.RuneSelf →
       UserAnswer res = uppercased_first_character (String c t)).
Proof.
  intros Hinv%reachable_inv Hq Hans.
  destruct (Answer_inv answer s idx rest Hinv Hq) as (q & res & Hiq & Hg & HA & _).
  exists q, res. do 2 eexists. split_and!; [done|done| | |].
  - rewrite <-Hans. by apply grade_Correct.
  - intros Hs Hk. rewrite <-(EqualFold_ascii _ _ Hs Hk), <-Hans.
    by apply grade_Correct.
  - intros Hc. rewrite (grade_ascii answer q c t Hans Hc) in Hg. by simplify_eq.
Qed.

(** C7 on the session of two questions, for the input " bx ". *)
Lemma C7_witness :
  ∃ q res fin s',
    index (Questions two_questions) 1 = Some q
    ∧ Answer (H := ascii_only) " bx " two_questions
      = Some ((res, fin, None), s')
    ∧ Correct res = strings.EqualFold (H := ascii_only) "bx" (Question.Answer q)
    ∧ (is_ascii "bx" = true → is_ascii (Question.Answer q) = true →
       Correct res = equal_ignoring_case "bx" (Question.Answer q))
    ∧ (0 < b2z "b" < utf8.RuneSelf →
       UserAnswer res = uppercased_first_character "bx").
Proof.
  apply (C7_graded_answer (H := ascii_only) _ " bx " 1 [0] "b"%char "x").
  - apply reachable_two_questions.
  - reflexivity.
  - reflexivity.
Defined.

(** The first character is not enough: "bx" against the key "B" is graded
    incorrect, with the user answer "B". *)
Example Answer_compares_whole_string `{Unicode} :
  ∃ s',
    Answer " bx " two_questions
    = Some (({| UserAnswer := "B"; Correct := false |}, false, None), s').
Proof. eexists. reflexivity. Qed.

(** C7 as stated fails, even for inputs that start with a one-byte
    character: the input that consists of the byte NUL is not empty after
    trimming, and its user answer is the empty string. *)
Lemma C7_counterexample :
  ¬ (∀ (U : Unicode) s answer idx rest c t,
       reachable s → queue s = idx :: rest →
       strings.TrimSpace answer = String c t → b2z c < utf8.RuneSelf →
       ∃ res fin err s',
         Answer answer s = Some ((res, fin, err), s')
         ∧ UserAnswer res = uppercased_first_character (String c t)).
Proof.
  intros Hclaim.
  destruct (Hclaim ascii_only (NewSession [question "A"] [0]) NUL 0 [] (z2b 0) EmptyString)
    as (res & fin & err & s' & HA & Hua).
  - apply reachable_NewSession; [vm_compute; discriminate|reflexivity].
  - reflexivity.
  - reflexivity.
  - reflexivity.
  - vm_compute in HA. injection HA as <- _ _ _. vm_compute in Hua. discriminate.
Qed.

(** Beyond ASCII [normalize] takes the first byte of the upper case string,
    not its first character: for the input "é" the user answer is "Ã",
    whenever the tables know that "É" is the upper case of "é" and that "é"
    is no white space. *)
Lemma grade_first_byte `{Unicode} q :
  TrimFunc_IsSpace e_acute = e_acute → To_UpperCase 0xE9 = 0xC9%N →
  UserAnswer <$> grade e_acute q = Some A_tilde.
Proof.
  intros Htrim Hupper. unfold grade, normalize.
  assert (strings.TrimSpace e_acute = e_acute) as -> by (by vm_compute).
  rewrite decide_False by done.
  assert (strings.ToUpper e_acute = E_acute) as ->.
  { unfold strings.ToUpper. change (strings.scanLower e_acute false) with (false, false).
    unfold strings.Map, e_acute. cbn [strings.Map_range].
    change (utf8.DecodeRuneInString (String (z2b 0xC3) (String (z2b 0xA9) EmptyString)))
      with (0xE9, 2%nat).
    cbn [Nat.pred]. cbv beta iota.
    unfold unicode.ToUpper. change (0xE9 <=? unicode.MaxASCII) with false.
    cbv iota. rewrite Hupper. reflexivity. }
  reflexivity.
Qed.

Example grade_first_byte_e_acute :
  UserAnswer <$> grade (H := knows_e_acute) e_acute (question "A") = Some A_tilde.
Proof. by apply (grade_first_byte (H := knows_e_acute)). Defined.

(** ** [Score] *)

Lemma len_app {A} (l k : list A) : len (l ++ k) = len l + len k.
Proof. unfold len. rewrite length_app. lia. Qed.

Lemma len_cons {A} (x : A) (l : list A) : len (x :: l) = Z.succ (len l).
Proof. unfold len. simpl. lia. Qed.

Lemma index_middle {A} (pre l : list A) x : index (pre ++ x :: l) (len pre) = Some x.
Proof.
  unfold index, len. rewrite decide_True by lia. rewrite Nat2Z.id.
  by rewrite list_lookup_middle.
Qed.

Lemma count_correct_bounds att rs :
  0 ≤ count_correct att rs ≤ count_true att.
Proof.
  revert rs. induction att as [|a att IH]; intros [|r rs]; simpl; try lia.
  - pose proof (count_true_bounds att). destruct a; lia.
  - specialize (IH rs). destruct a, (Correct r); simpl; lia.
Qed.

(** The loop of [Score] adds to its two counters the numbers of first
    attempts that were right and of attempts, as long as neither counter
    overflows. *)
Lemma Score_loop_spec rs :
  ∀ pre att score answered,
    length att = length rs →
    0 ≤ score ≤ answered → answered + len rs ≤ MaxInt →
    Score_loop rs (len pre) (pre ++ att) score answered
    = Some (score + count_correct att rs, answered + count_true att).
Proof.
  induction rs as [|res rs IH]; intros pre att score answered Hlen Hsc Han.
  - destruct att; [|done]. simpl. do 2 f_equal; lia.
  - destruct att as [|a att]; [done|]. simpl in Hlen.
    rewrite len_cons in Han. pose proof (Z.le_0_1).
    assert (0 ≤ len rs) by (unfold len; lia).
    cbn [Score_loop]. rewrite index_middle. simpl.
    replace (len pre + 1) with (len (pre ++ [a])) by (rewrite len_app; done).
    replace (pre ++ a :: att) with ((pre ++ [a]) ++ att) by (by rewrite <-app_assoc).
    destruct a; simpl.
    + rewrite (incr_below answered MaxInt) by lia.
      destruct (Correct res).
      * rewrite (incr_below score MaxInt) by lia.
        rewrite IH by lia. do 2 f_equal; lia.
      * rewrite IH by lia. do 2 f_equal; lia.
    + rewrite IH by lia. do 2 f_equal; lia.
Qed.

Lemma num_correct_count (pa : list bool) (pr : list Result) att rs :
  length pa = length pr → length att = length rs →
  len (filter (λ i, index (pa ++ att) i = Some true
                    ∧ Correct <$> index (pr ++ rs) i = Some true)
              (seqZ (len pr) (len rs)))
  = count_correct att rs.
Proof.
  revert pa pr att. induction rs as [|r rs IH]; intros pa pr att Hp Hlen.
  - destruct att; [|done]. unfold len at 2. simpl. by rewrite seqZ_nil.
  - destruct att as [|a att]; [done|]. simpl in Hlen.
    rewrite len_cons, seqZ_cons by (unfold len; lia). rewrite Z.pred_succ.
    rewrite filter_cons.
    assert (len pa = len pr) as Hp' by (unfold len; lia).
    assert (index (pa ++ a :: att) (len pr) = Some a) as Ha
      by (rewrite <-Hp'; apply index_middle).
    assert (index (pr ++ r :: rs) (len pr) = Some r) as Hr by apply index_middle.
    specialize (IH (pa ++ [a]) (pr ++ [r]) att).
    rewrite !length_app, !len_app, <-!app_assoc in IH. simpl in IH.
    change (len [r]) with 1 in IH. rewrite Z.add_1_r in IH.
    simpl count_correct. rewrite <-IH by lia.
    case_decide as Hd; rewrite Ha, Hr in Hd; simpl in Hd.
    + destruct Hd as [[= ->] [= ->]]. rewrite len_cons. simpl. lia.
    + destruct a, (Correct r); simpl; try lia. by destruct Hd.
Qed.

Lemma num_first_correct_count s :
  length (attempted s) = length (results s) →
  num_first_correct s = count_correct (attempted s) (results s).
Proof. intros Hlen. by apply (num_correct_count [] []). Qed.

Lemma Score_inv s :
  inv s → Score s = Some ((num_first_correct s, num_attempted s), s).
Proof.
  intros Hinv.
  pose proof (inv_attempted s Hinv) as Hla. pose proof (inv_results s Hinv) as Hlr.
  pose proof (inv_max s Hinv) as Hmax.
  assert (length (attempted s) = length (results s)) as Hlen by (unfold len in *; lia).
  pose proof (Score_loop_spec (results s) [] (attempted s) 0 0) as Hloop.
  change (len []) with 0 in Hloop.
  change ([] ++ attempted s) with (attempted s) in Hloop.
  unfold Score. rewrite Hloop by (done || lia).
  simpl. rewrite num_first_correct_count, num_attempted_count by done. done.
Qed.

(** C8. On every reachable session [Score()] returns as [answered] the
    number of indices [i] with [attempted[i]] true, which is also the
    counter [attemptedCount] that [AttemptedCount()] returns, and as
    [score] the number of those indices whose [results[i].correct] is
    true; and no sequence of calls makes [answered] smaller. *)
Theorem C8_Score `{Unicode} s :
  reachable s →
  Score s = Some ((num_first_correct s, num_attempted s), s)
  ∧ AttemptedCount s = Some (attemptedCount s, s)
  ∧ attemptedCount s = num_attempted s
  ∧ (∀ s', rtc step s s' →
       Score s' = Some ((num_first_correct s', num_attempted s'), s')
       ∧ num_attempted s ≤ num_attempted s').
Proof.
  intros Hinv%reachable_inv. split_and!.
  - by apply Score_inv.
  - done.
  - by rewrite num_attempted_count, (inv_attemptedCount s Hinv).
  - intros s' Hsteps.
    pose proof (steps_inv s s' Hinv Hsteps) as Hinv'.
    split; [by apply Score_inv|].
    destruct (keeps_steps s s' Hinv Hsteps) as (_ & _ & Hmono & _).
    rewrite !num_attempted_count.
    by rewrite <-(inv_attemptedCount s Hinv), <-(inv_attemptedCount s' Hinv').
Qed.

(** C8 on the session after a wrong answer. *)
Lemma C8_witness :
  Score after_wrong_answer
  = Some ((num_first_correct after_wrong_answer, num_attempted after_wrong_answer),
          after_wrong_answer)
  ∧ AttemptedCount after_wrong_answer
    = Some (attemptedCount after_wrong_answer, after_wrong_answer)
  ∧ attemptedCount after_wrong_answer = num_attempted after_wrong_answer
  ∧ (∀ s', rtc (step (H := ascii_only)) after_wrong_answer s' →
       Score s' = Some ((num_first_correct s', num_attempted s'), s')
       ∧ num_attempted after_wrong_answer ≤ num_attempted s').
Proof.
  apply (C8_Score (H := ascii_only)). apply reachable_after_wrong_answer.
Defined.

(** * More of the code *)

(** ** The stored first attempts: proofs *)

Lemma first_attempts_NewSession qs perm : first_attempts (NewSession qs perm).
Proof.
  split; simpl.
  - intros i. rewrite !index_replicate. by case_decide.
  - intros i r. rewrite index_replicate. by case_decide.
Qed.

Lemma first_attempts_answered s idx rest res :
  inv s → first_attempts s → queue s = idx :: rest →
  first_attempts (answered s idx rest res).
Proof.
  intros Hinv [Hzero Hfirst] Hq.
  destruct (inv_front s idx rest Hinv Hq) as (Hidx & Hc & _).
  pose proof (inv_attempted s Hinv) as Hla.
  pose proof (inv_completed s Hinv) as Hlc.
  pose proof (inv_results s Hinv) as Hlr.
  split; simpl.
  - intros i. rewrite index_insert by lia. case_decide as Hi; [done|].
    intros Ha. case_decide; [by apply Hzero|].
    rewrite index_insert by lia. rewrite decide_False by done. by apply Hzero.
  - intros i r. rewrite index_insert by lia.
    destruct (decide (idx = i)) as [<-|Hi].
    + intros _. case_decide as Ha.
      * intros Hr Hcorrect. pose proof (Hfirst idx r Ha Hr Hcorrect). congruence.
      * rewrite index_insert by lia. rewrite decide_True by done.
        intros [= <-] ->. rewrite index_insert by lia. by rewrite decide_True.
    + intros Ha Hr Hcorrect.
      assert (index (results s) i = Some r) as Hr'.
      { case_decide; [done|]. rewrite index_insert in Hr by lia.
        by rewrite decide_False in Hr. }
      pose proof (Hfirst i r Ha Hr' Hcorrect) as Hci.
      destruct (Correct res); [|done].
      rewrite index_insert by lia. by rewrite decide_False.
Qed.

Lemma first_attempts_step `{Unicode} s s' :
  inv s → first_attempts s → step s s' → first_attempts s'.
Proof.
  intros Hinv Hres [(answer & r & HA)|[(target & HB)| ->]]%step_cases; [| |done].
  - destruct (Answer_cases answer s r s' Hinv HA)
      as [[_ ->]|(idx & rest & res & Hq & ->)]; [done|].
    by apply first_attempts_answered.
  - destruct (BringToFront_spec target s) as (q' & HB' & _).
    rewrite HB in HB'. injection HB' as ->. by destruct Hres.
Qed.

Lemma reachable_first_attempts `{Unicode} s : reachable s → first_attempts s.
Proof.
  intros (qs & perm & Hmax & Hperm & Hsteps).
  pose proof (inv_NewSession qs perm Hmax Hperm) as Hinv.
  pose proof (first_attempts_NewSession qs perm) as Hres.
  induction Hsteps as [|s t u Hstep _ IH]; [done|].
  apply IH; [by eapply step_inv|by eapply first_attempts_step].
Qed.

(** ** Counting, once more *)

Lemma count_true_le l1 l2 :
  length l1 = length l2 →
  (∀ i, l1 !! i = Some true → l2 !! i = Some true) →
  count_true l1 ≤ count_true l2.
Proof.
  revert l2. induction l1 as [|a l1 IH]; intros [|b l2] Hlen Himp; simplify_eq/=.
  - lia.
  - assert (count_true l1 ≤ count_true l2) as Hle.
    { apply IH; [done|]. intros i. apply (Himp (S i)). }
    destruct a; [|destruct b; lia].
    pose proof (Himp 0%nat eq_refl). simplify_eq/=. lia.
Qed.

Lemma index_nat {A} (l : list A) (i : nat) : index l (Z.of_nat i) = l !! i.
Proof. unfold index. rewrite decide_True by lia. by rewrite Nat2Z.id. Qed.

Lemma count_correct_le att rs com :
  length att = length rs → length att = length com →
  (∀ i r, att !! i = Some true → rs !! i = Some r → Correct r = true →
          com !! i = Some true) →
  count_correct att rs ≤ count_true com.
Proof.
  revert rs com. induction att as [|a att IH]; intros [|r rs] [|c com] Hr Hc Himp;
    simplify_eq/=; [lia|].
  assert (count_correct att rs ≤ count_true com) as Hle.
  { apply IH; [done..|]. intros i. apply (Himp (S i)). }
  destruct a, (Correct r) eqn:Hcorrect; simpl; try (destruct c; lia).
  pose proof (Himp 0%nat r eq_refl eq_refl Hcorrect). simplify_eq/=. lia.
Qed.

(** The queue and the completed questions share out the indices. *)
Lemma inv_remaining s :
  inv s → len (queue s) + count_true (completed s) = len (Questions s).
Proof.
  intros Hinv.
  assert (queue s ++ filter (λ i, index (completed s) i = Some true)
                            (seqZ 0 (len (Questions s)))
          ≡ₚ seqZ 0 (len (Questions s))) as Hperm.
  { apply NoDup_Permutation.
    - apply NoDup_app. split_and!.
      + apply Hinv.
      + intros i Hq%(inv_queue s Hinv) [Hc _]%list_elem_of_filter. congruence.
      + apply NoDup_filter, NoDup_seqZ.
    - apply NoDup_seqZ.
    - intros i. rewrite elem_of_app, list_elem_of_filter, elem_of_seqZ.
      rewrite <-(inv_partition s i Hinv). tauto. }
  apply Permutation_length in Hperm.
  rewrite length_app, length_seqZ in Hperm.
  rewrite <-num_completed_count. unfold num_completed.
  rewrite (inv_completed s Hinv). unfold len in *. lia.
Qed.

Lemma steps_queue_length `{Unicode} s s' :
  inv s → rtc step s s' → len (queue s') ≤ len (queue s).
Proof.
  intros Hinv Hsteps.
  pose proof (steps_inv s s' Hinv Hsteps) as Hinv'.
  destruct (keeps_steps s s' Hinv Hsteps) as (_ & _ & _ & Hcc).
  pose proof (inv_remaining s Hinv). pose proof (inv_remaining s' Hinv').
  rewrite (inv_completedCount s Hinv), (inv_completedCount s' Hinv') in Hcc.
  assert (Questions s' = Questions s) as HQ.
  { clear -Hinv Hsteps. induction Hsteps as [|s t u Hstep _ IH]; [done|].
    rewrite IH by (by eapply step_inv). clear IH.
    destruct (step_cases s t Hstep) as [(answer & r & HA)|[(target & HB)| ->]]; [| |done].
    - destruct (Answer_cases answer s r t Hinv HA)
        as [[_ ->]|(idx & rest & res & Hq & ->)]; done.
    - destruct (BringToFront_spec target s) as (q' & HB' & _).
      rewrite HB in HB'. by injection HB' as ->. }
  rewrite HQ in *. lia.
Qed.

(** X1. On a reachable session [Progress()] returns the number of
    completed questions and the number of questions; what is left between
    the two is the length of the queue, and no sequence of calls makes the
    queue longer. *)
Theorem X1_Progress_counts_the_queue `{Unicode} s :
  reachable s →
  Progress s = Some ((num_completed s, len (Questions s)), s)
  ∧ 0 ≤ num_completed s ≤ len (Questions s)
  ∧ len (Questions s) - num_completed s = len (queue s)
  ∧ (∀ s', rtc step s s' → len (queue s') ≤ len (queue s)).
Proof.
  intros Hinv%reachable_inv.
  pose proof (inv_remaining s Hinv) as Hrem.
  pose proof (count_true_bounds (completed s)) as Hb.
  rewrite (inv_completed s Hinv) in Hb.
  rewrite num_completed_count. split_and!.
  - unfold Progress. by rewrite (inv_completedCount s Hinv).
  - lia.
  - lia.
  - lia.
  - intros s'. by apply steps_queue_length.
Qed.

(** X1 on the session after a wrong answer. *)
Lemma X1_witness :
  Progress after_wrong_answer
  = Some ((num_completed after_wrong_answer, len (Questions after_wrong_answer)),
          after_wrong_answer)
  ∧ 0 ≤ num_completed after_wrong_answer ≤ len (Questions after_wrong_answer)
  ∧ len (Questions after_wrong_answer) - num_completed after_wrong_answer
    = len (queue after_wrong_answer)
  ∧ (∀ s', rtc (step (H := ascii_only)) after_wrong_answer s' →
           len (queue s') ≤ len (queue after_wrong_answer)).
Proof.
  apply (X1_Progress_counts_the_queue (H := ascii_only)).
  apply reachable_after_wrong_answer.
Defined.

(** ** [Answer], [Current], [Results], [Score] and [NewSession] *)

(** X2. On a reachable session whose queue starts with [idx], [Answer]
    returns without an error; a right answer takes [idx] out of the queue
    and completes it, a wrong one moves [idx] to the back of the queue and
    leaves it uncompleted; [completedCount] grows by one exactly on a right
    answer, [attemptedCount] by one exactly on a first attempt; and the
    flag it returns is what [Completed()] returns afterwards. *)
Theorem X2_Answer_moves_the_front `{Unicode} s answer idx rest :
  reachable s → queue s = idx :: rest →
  ∃ res fin s',
    Answer answer s = Some ((res, fin, None), s')
    ∧ queue s' = (if Correct res then rest else rest ++ [idx])
    ∧ index (completed s') idx = Some (Correct res)
    ∧ index (attempted s') idx = Some true
    ∧ completedCount s' = completedCount s + (if Correct res then 1 else 0)
    ∧ attemptedCount s'
      = attemptedCount s
        + (if decide (index (attempted s) idx = Some true) then 0 else 1)
    ∧ Completed s' = Some (fin, s')
    ∧ (fin = true ↔ Correct res = true ∧ rest = []).
Proof.
  intros Hinv%reachable_inv Hq.
  destruct (Answer_inv answer s idx rest Hinv Hq) as (q & res & _ & _ & HA & Hinv').
  destruct (inv_front s idx rest Hinv Hq) as (Hidx & Hc & _).
  pose proof (inv_attempted s Hinv) as Hla.
  pose proof (inv_completed s Hinv) as Hlc.
  destruct (index_is_Some (attempted s) idx) as [a Hia]; [lia|].
  assert (completed s !! Z.to_nat idx = Some false) as Hlookc
    by (unfold index in Hc; by rewrite decide_True in Hc by lia).
  assert (attempted s !! Z.to_nat idx = Some a) as Hlooka
    by (unfold index in Hia; by rewrite decide_True in Hia by lia).
  exists res. do 2 eexists. split; [exact HA|]. split_and!.
  - simpl. by destruct (Correct res).
  - simpl. destruct (Correct res); [|done].
    rewrite index_insert by lia. by rewrite decide_True.
  - simpl. rewrite index_insert by lia. by rewrite decide_True.
  - rewrite (inv_completedCount _ Hinv'), (inv_completedCount _ Hinv). simpl.
    destruct (Correct res); [|lia]. by rewrite (count_true_insert _ _ Hlookc).
  - rewrite (inv_attemptedCount _ Hinv'), (inv_attemptedCount _ Hinv). simpl.
    rewrite Hia. destruct a.
    + rewrite decide_True by done. rewrite list_insert_id by done. lia.
    + rewrite decide_False by done. by rewrite (count_true_insert _ _ Hlooka).
  - done.
  - rewrite bool_decide_eq_true. simpl. unfold len.
    destruct (Correct res).
    + destruct rest; simpl; split; try done; try lia. by intros [_ ?].
    + rewrite length_app. simpl. split; [lia|]. by intros [? _].
Qed.

(** X2 on the session of two questions, for a right answer. *)
Lemma X2_witness :
  ∃ res fin s',
    Answer (H := ascii_only) "b" two_questions = Some ((res, fin, None), s')
    ∧ queue s' = (if Correct res then [0] else [0] ++ [1])
    ∧ index (completed s') 1 = Some (Correct res)
    ∧ index (attempted s') 1 = Some true
    ∧ completedCount s' = completedCount two_questions + (if Correct res then 1 else 0)
    ∧ attemptedCount s'
      = attemptedCount two_questions
        + (if decide (index (attempted two_questions) 1 = Some true) then 0 else 1)
    ∧ Completed s' = Some (fin, s')
    ∧ (fin = true ↔ Correct res = true ∧ [0] = []).
Proof.
  apply (X2_Answer_moves_the_front (H := ascii_only) two_questions "b" 1 [0]).
  - apply reachable_two_questions.
  - reflexivity.
Defined.

(** X3. On a reachable session [Current()] returns and leaves the session
    as it is.  With an empty queue it returns [(-1, Question{}, false)] and
    [Completed()] is true; otherwise it returns the front of the queue with
    its question, which is in range and not completed, and [Completed()]
    is false. *)
Theorem X3_Current_peeks `{Unicode} s :
  reachable s →
  match queue s with
  | [] =>
    Current s = Some ((-1, Question.zero, false), s)
    ∧ Completed s = Some (true, s)
  | idx :: _ =>
    ∃ q, Current s = Some ((idx, q, true), s)
         ∧ index (Questions s) idx = Some q
         ∧ index (completed s) idx = Some false
         ∧ Completed s = Some (false, s)
  end.
Proof.
  intros Hinv%reachable_inv. destruct (queue s) as [|idx rest] eqn:Hq.
  - unfold Current, Completed. by rewrite Hq.
  - destruct (inv_front s idx rest Hinv Hq) as (Hidx & Hc & _).
    destruct (index_is_Some (Questions s) idx Hidx) as [q Hiq].
    exists q. unfold Current, Completed. rewrite Hq, Hiq. done.
Qed.

(** X3 on the session after a wrong answer. *)
Lemma X3_witness :
  ∃ q, Current after_wrong_answer = Some ((0, q, true), after_wrong_answer)
       ∧ index (Questions after_wrong_answer) 0 = Some q
       ∧ index (completed after_wrong_answer) 0 = Some false
       ∧ Completed after_wrong_answer = Some (false, after_wrong_answer).
Proof.
  apply (X3_Current_peeks (H := ascii_only) after_wrong_answer).
  apply reachable_after_wrong_answer.
Defined.

(** X4. On a reachable session [Results()] returns one [Result] for each
    question: the zero [Result] for a question that was never attempted,
    and a [Result] that is marked correct only for a question that is
    attempted and completed. *)
Theorem X4_Results_of_first_attempts `{Unicode} s :
  reachable s →
  ∃ rs,
    Results s = Some (rs, s)
    ∧ len rs = len (Questions s)
    ∧ (∀ i, index (attempted s) i = Some false → index rs i = Some Result_zero)
    ∧ (∀ i r, index rs i = Some r → Correct r = true →
              index (attempted s) i = Some true
              ∧ index (completed s) i = Some true).
Proof.
  intros Hreach. pose proof (reachable_inv s Hreach) as Hinv.
  destruct (reachable_first_attempts s Hreach) as [Hzero Hfirst].
  exists (results s). split_and!.
  - done.
  - apply Hinv.
  - done.
  - intros i r Hr Hcorrect.
    pose proof (index_Some _ _ _ Hr) as Hi.
    rewrite (inv_results s Hinv), <-(inv_attempted s Hinv) in Hi.
    destruct (index_is_Some (attempted s) i Hi) as [[] Ha].
    + split; [done|]. by apply (Hfirst i r).
    + rewrite (Hzero i Ha) in Hr. by simplify_eq.
Qed.

(** X4 on the finished session. *)
Lemma X4_witness :
  ∃ rs,
    Results finished_session = Some (rs, finished_session)
    ∧ len rs = len (Questions finished_session)
    ∧ (∀ i, index (attempted finished_session) i = Some false →
            index rs i = Some Result_zero)
    ∧ (∀ i r, index rs i = Some r → Correct r = true →
              index (attempted finished_session) i = Some true
              ∧ index (completed finished_session) i = Some true).
Proof.
  apply (X4_Results_of_first_attempts (H := ascii_only)).
  apply reachable_finished_session.
Defined.

(** X5. On a reachable session the numbers that [Score()], [Progress()]
    and [AttemptedCount()] report are in order: the score is at most the
    number of completed questions, which is at most the number of attempted
    questions, which is at most the number of questions. *)
Theorem X5_Score_bounds `{Unicode} s :
  reachable s →
  ∃ score answered,
    Score s = Some ((score, answered), s)
    ∧ Progress s = Some ((completedCount s, len (Questions s)), s)
    ∧ AttemptedCount s = Some (answered, s)
    ∧ 0 ≤ score ≤ completedCount s
    ∧ completedCount s ≤ answered
    ∧ answered ≤ len (Questions s).
Proof.
  intros Hreach. pose proof (reachable_inv s Hreach) as Hinv.
  destruct (reachable_first_attempts s Hreach) as [_ Hfirst].
  pose proof (inv_attempted s Hinv) as Hla.
  pose proof (inv_completed s Hinv) as Hlc.
  pose proof (inv_results s Hinv) as Hlr.
  assert (length (attempted s) = length (results s)) as Har by (unfold len in *; lia).
  assert (length (attempted s) = length (completed s)) as Hac by (unfold len in *; lia).
  exists (num_first_correct s), (num_attempted s).
  rewrite num_first_correct_count, num_attempted_count by done.
  split_and!.
  - rewrite (Score_inv s Hinv).
    by rewrite num_first_correct_count, num_attempted_count.
  - done.
  - unfold AttemptedCount. by rewrite (inv_attemptedCount s Hinv).
  - apply count_correct_bounds.
  - rewrite (inv_completedCount s Hinv). apply count_correct_le; [done..|].
    intros i r Ha Hr. rewrite <-!index_nat in *. by apply Hfirst.
  - rewrite (inv_completedCount s Hinv). apply count_true_le; [done|].
    intros i Hc. rewrite <-!index_nat in *. by apply (inv_first s Hinv).
  - pose proof (count_true_bounds (attempted s)). lia.
Qed.

(** X5 on the finished session. *)
Lemma X5_witness :
  ∃ score answered,
    Score finished_session = Some ((score, answered), finished_session)
    ∧ Progress finished_session
      = Some ((completedCount finished_session, len (Questions finished_session)),
              finished_session)
    ∧ AttemptedCount finished_session = Some (answered, finished_session)
    ∧ 0 ≤ score ≤ completedCount finished_session
    ∧ completedCount finished_session ≤ answered
    ∧ answered ≤ len (Questions finished_session).
Proof.
  apply (X5_Score_bounds (H := ascii_only)). apply reachable_finished_session.
Defined.

Lemma count_correct_replicate n rs : count_correct (replicate n false) rs = 0.
Proof.
  revert rs. induction n as [|n IH]; intros [|r rs]; simpl; try done.
  by rewrite IH.
Qed.



(** ** [BringToFront] composed *)


Lemma BringToFront_at_front target l s :
  BringToFront target (set_queue s (target :: l))
  = Some ((), set_queue s (target :: l)).
Proof.
  unfold BringToFront. simpl.
  destruct (decide (target < 0 ∨ len (completed s) ≤ target)); [done|].
  destruct (index_is_Some (completed s) target) as [c Hc]; [lia|].
  rewrite Hc. simpl. destruct c; [done|].
  rewrite (decide_True (P := target = target)) by done. by rewrite decide_True.
Qed.

(** X7. [BringToFront] is idempotent, on every session and for every
    target: it returns, and a second call with the same target changes
    nothing any more. *)
Theorem X7_BringToFront_idempotent target s :
  ∃ s', BringToFront target s = Some ((), s')
        ∧ BringToFront target s' = Some ((), s').
Proof.
  destruct (BringToFront_spec target s) as (q' & HB & Hq').
  exists (set_queue s q'). split; [done|].
  destruct (index (completed s) target) as [[]|] eqn:Hc.
  - subst q'. rewrite set_queue_id. apply BringToFront_noop. congruence.
  - destruct Hq' as [[_ ->]|(l1 & l2 & _ & _ & ->)]; apply BringToFront_at_front.
  - subst q'. rewrite set_queue_id. apply BringToFront_noop. congruence.
Qed.

(** X8. A jump followed by an answer: on a reachable session, after
    [BringToFront(target)] for a question that is not completed, [Answer]
    grades its input against the answer key of question [target], records
    the attempt, and completes [target] exactly when the answer is right. *)
Theorem X8_jump_then_answer `{Unicode} s target answer :
  reachable s → index (completed s) target = Some false →
  ∃ s1 q res fin s2,
    BringToFront target s = Some ((), s1)
    ∧ index (Questions s) target = Some q
    ∧ Answer answer s1 = Some ((res, fin, None), s2)
    ∧ Correct res
      = strings.EqualFold (strings.TrimSpace answer) (Question.Answer q)
    ∧ index (attempted s2) target = Some true
    ∧ index (completed s2) target = Some (Correct res).
Proof.
  intros Hreach Hc. pose proof (reachable_inv s Hreach) as Hinv.
  destruct (BringToFront_spec target s) as (q' & HB & Hq'). rewrite Hc in Hq'.
  destruct Hq' as [[Hnot _]|(l1 & l2 & Hq & _ & ->)].
  { exfalso. apply Hnot. by apply (inv_queue s Hinv). }
  destruct (BringToFront_inv target s _ Hinv HB) as (Hinv1 & _).
  destruct (Answer_inv answer (set_queue s (target :: l1 ++ l2)) target (l1 ++ l2)
              Hinv1 eq_refl) as (q & res & Hiq & Hg & HA & _).
  pose proof (index_Some _ _ _ Hc) as Hrange.
  pose proof (inv_attempted s Hinv) as Hla.
  pose proof (inv_completed s Hinv) as Hlc.
  exists (set_queue s (target :: l1 ++ l2)), q, res. do 2 eexists.
  split_and!; [done|done|exact HA|by apply grade_Correct| |].
  - simpl. rewrite index_insert by lia. by rewrite decide_True.
  - simpl. destruct (Correct res); [|done].
    rewrite index_insert by lia. by rewrite decide_True.
Qed.

(** X8 on the session of two questions: a jump to question 0, then "a". *)
Lemma X8_witness :
  ∃ s1 q res fin s2,
    BringToFront 0 two_questions = Some ((), s1)
    ∧ index (Questions two_questions) 0 = Some q
    ∧ Answer (H := ascii_only) "a" s1 = Some ((res, fin, None), s2)
    ∧ Correct res
      = strings.EqualFold (H := ascii_only)
          (strings.TrimSpace (H := ascii_only) "a") (Question.Answer q)
    ∧ index (attempted s2) 0 = Some true
    ∧ index (completed s2) 0 = Some (Correct res).
Proof.
  apply (X8_jump_then_answer (H := ascii_only) two_questions 0 "a").
  - apply reachable_two_questions.
  - reflexivity.
Defined.

(** ** A run without a wrong answer *)

Lemma count_correct_insert att rs i res :
  att !! i = Some false → (i < length rs)%nat → Correct res = true →
  count_correct (<[i := true]> att) (<[i := res]> rs) = count_correct att rs + 1.
Proof.
  revert rs i. induction att as [|a att IH]; intros [|r rs] [|i] Ha Hi Hres;
    simplify_eq/=; try lia.
  - rewrite Hres. simpl. lia.
  - rewrite IH by (done || lia). lia.
Qed.

Lemma submit_keys `{Unicode} (qs : list Question.t) l :
  (∀ q, q ∈ qs →
        strings.EqualFold (strings.TrimSpace (Question.Answer q)) (Question.Answer q)
        = true) →
  ∀ s, inv s → spotless s → Questions s = qs → queue s = l →
       ∃ s', submit (key_of qs <$> l) s = Some s'
             ∧ inv s' ∧ spotless s' ∧ Questions s' = qs ∧ queue s' = [].
Proof.
  intros Hkeys. induction l as [|idx rest IH]; intros s Hinv Hspot HQ Hq.
  - exists s. by split_and!.
  - destruct (Answer_inv (key_of qs idx) s idx rest Hinv Hq)
      as (q & res & Hiq & Hg & HA & Hinv').
    destruct (inv_front s idx rest Hinv Hq) as (Hidx & Hc & _).
    pose proof (inv_attempted s Hinv) as Hla.
    pose proof (inv_completed s Hinv) as Hlc.
    pose proof (inv_results s Hinv) as Hlr.
    assert (Correct res = true) as Hres.
    { rewrite (grade_Correct _ _ _ Hg). unfold key_of. rewrite <-HQ, Hiq.
      apply Hkeys. rewrite <-HQ. unfold index in Hiq.
      case_decide; [|done]. by eapply list_elem_of_lookup_2. }
    destruct Hspot as [Hac Hcount].
    assert (index (attempted s) idx = Some false) as Ha by (by rewrite Hac).
    assert (attempted s !! Z.to_nat idx = Some false) as Hlooka
      by (unfold index in Ha; by rewrite decide_True in Ha by lia).
    simpl. rewrite HA. simpl.
    apply IH; [done| |done|].
    + unfold spotless. simpl. rewrite Hres. split.
      * by rewrite Hac.
      * rewrite Ha, decide_False by done.
        rewrite count_correct_insert by (done || unfold len in *; lia).
        rewrite (count_true_insert _ _ Hlooka). lia.
    + simpl. by rewrite Hres.
Qed.

(** X9. A run without a wrong answer: when every answer key matches
    itself, submitting to a new session the keys of the questions in the
    order of the queue finishes the session after one answer per question,
    with every question right at the first attempt: [Score()] and
    [Progress()] both return (n, n) for n questions. *)
Theorem X9_all_right_at_first_try `{Unicode} qs perm :
  len qs ≤ MaxInt → perm ≡ₚ seqZ 0 (len qs) →
  (∀ q, q ∈ qs →
        strings.EqualFold (strings.TrimSpace (Question.Answer q)) (Question.Answer q)
        = true) →
  ∃ s',
    submit (key_of qs <$> perm) (NewSession qs perm) = Some s'
    ∧ queue s' = []
    ∧ Score s' = Some ((len qs, len qs), s')
    ∧ Progress s' = Some ((len qs, len qs), s').
Proof.
  intros Hmax Hperm Hkeys.
  destruct (submit_keys qs perm Hkeys (NewSession qs perm))
    as (s' & Hsub & Hinv' & [Hac Hcount] & HQ & Hq); [|split|done|done|].
  - by apply inv_NewSession.
  - done.
  - simpl. by rewrite count_correct_replicate, count_true_replicate.
  - exists s'. split_and!; [done|done| |].
    + pose proof (inv_finished s' Hinv' Hq) as Hfin.
      rewrite (inv_completedCount s' Hinv'), HQ in Hfin.
      rewrite (Score_inv s' Hinv').
      rewrite num_first_correct_count, num_attempted_count
        by (pose proof (inv_attempted s' Hinv'); pose proof (inv_results s' Hinv');
            unfold len in *; lia).
      by rewrite Hcount, Hac, Hfin.
    + unfold Progress. by rewrite (inv_finished s' Hinv' Hq), HQ.
Qed.

(** X9 for the two questions with the keys "A" and "B". *)
Lemma X9_witness :
  ∃ s',
    submit (H := ascii_only) (key_of [question "A"; question "B"] <$> [1; 0])
           two_questions = Some s'
    ∧ queue s' = []
    ∧ Score s' = Some ((2, 2), s')
    ∧ Progress s' = Some ((2, 2), s').
Proof.
  apply (X9_all_right_at_first_try (H := ascii_only)
           [question "A"; question "B"] [1; 0]).
  - vm_compute. discriminate.
  - apply perm_swap.
  - intros q Hq. apply elem_of_cons in Hq as [->|Hq]; [reflexivity|].
    apply elem_of_cons in Hq as [->|Hq]; [reflexivity|].
    by apply elem_of_nil in Hq.
Defined.

(** ** [findQuestionIndex] *)

Lemma sub_no_wrap x y : MinInt ≤ x - y ≤ MaxInt → sub x y = x - y.
Proof.
  unfold MinInt, MaxInt, sub, wrap. intros Hx.
  rewrite Z.mod_small by lia. lia.
Qed.

Lemma findPrompt_range `{UnicodeLower} qs needle i :
  findPrompt qs needle i = -1
  ∨ i ≤ findPrompt qs needle i < i + len qs.
Proof.
  revert i. induction qs as [|q qs IH]; intros i; simpl; [by left|].
  rewrite len_cons. pose proof (Z.le_0_1).
  assert (0 ≤ len qs) by (unfold len; lia).
  case_match; [right; lia|].
  destruct (IH (i + 1)) as [->|?]; [by left|right; lia].
Qed.

(** The first question from index [i] on whose prompt contains [needle]. *)
Lemma findPrompt_first `{UnicodeLower} pre qs needle :
  let found q :=
    strings_more.Contains (strings_more.ToLower (Question.Prompt q)) needle in
  let i := findPrompt qs needle (len pre) in
  (i = -1 ∧ ∀ q, q ∈ qs → found q = false)
  ∨ (∃ q, index (pre ++ qs) i = Some q ∧ found q = true
          ∧ ∀ j q', len pre ≤ j < i → index (pre ++ qs) j = Some q' →
                    found q' = false).
Proof.
  intros found. revert pre. induction qs as [|q qs IH]; intros pre; simpl.
  - left. split; [done|]. intros q Hq. by apply elem_of_nil in Hq.
  - destruct (found q) eqn:Hfound; fold (found q); rewrite Hfound.
    + right. exists q. split_and!; [apply index_middle|done|]. intros; lia.
    + specialize (IH (pre ++ [q])). rewrite len_app in IH.
      change (len [q]) with 1 in IH. rewrite <-app_assoc in IH. simpl in IH.
      destruct IH as [[-> Hnone]|(q1 & Hq1 & Hf1 & Hbefore)].
      * left. split; [done|]. intros q' [->|Hq']%elem_of_cons; [done|by apply Hnone].
      * right. exists q1. split_and!; [done..|].
        intros j q' Hj Hq'. destruct (decide (j = len pre)) as [->|Hne].
        -- rewrite index_middle in Hq'. by simplify_eq.
        -- apply (Hbefore j q'); [lia|done].
Qed.

Lemma findQuestionIndex_range `{UnicodeLower} term sv :
  len (questions sv) ≤ MaxInt →
  findQuestionIndex term sv = -1 ∨ 0 ≤ findQuestionIndex term sv < len (questions sv).
Proof.
  intros Hmax. assert (0 ≤ len (questions sv)) by (unfold len; lia).
  unfold findQuestionIndex.
  destruct (strconv.Atoi term) as [n|]; [case_decide; [right; lia|]|];
    (destruct (findPrompt_range (questions sv) (strings_more.ToLower term) 0)
      as [->|?]; [by left|right; lia]).
Qed.

(** X10. [findQuestionIndex] returns -1 or an index of a question.  A
    term that [strconv.Atoi] reads as a number between 1 and the number of
    questions selects the question with that number, whatever the prompts
    say; every other term selects the first question whose lower case
    prompt contains the lower case term, and -1 when there is none. *)
Theorem X10_findQuestionIndex `{UnicodeLower} term sv :
  len (questions sv) ≤ MaxInt →
  let found q :=
    strings_more.Contains (strings_more.ToLower (Question.Prompt q))
                          (strings_more.ToLower term) in
  let i := findQuestionIndex term sv in
  (i = -1 ∨ 0 ≤ i < len (questions sv))
  ∧ (∀ n, strconv.Atoi term = Some n → 1 ≤ n ≤ len (questions sv) → i = n - 1)
  ∧ ((∀ n, strconv.Atoi term = Some n → ¬ (1 ≤ n ≤ len (questions sv))) →
     (i = -1 ∧ ∀ q, q ∈ questions sv → found q = false)
     ∨ (∃ q, index (questions sv) i = Some q ∧ found q = true
             ∧ ∀ j q', 0 ≤ j < i → index (questions sv) j = Some q' →
                       found q' = false)).
Proof.
  intros Hmax found i.
  assert (∀ n, strconv.Atoi term = Some n →
               (0 ≤ sub n 1 ∧ sub n 1 < len (questions sv))
               ↔ 1 ≤ n ≤ len (questions sv)) as Hnum.
  { intros n Hn.
    assert (MinInt ≤ n ≤ MaxInt) as Hrange.
    { unfold strconv.Atoi in Hn. repeat case_match; simplify_option_eq; done. }
    destruct (decide (n = MinInt)) as [->|Hne].
    - assert (sub MinInt 1 = MaxInt) as -> by done.
      unfold MinInt, MaxInt in *. lia.
    - rewrite sub_no_wrap by (unfold MinInt, MaxInt in *; lia). lia. }
  assert (0 ≤ len (questions sv)) by (unfold len; lia).
  subst i. unfold findQuestionIndex.
  destruct (strconv.Atoi term) as [n|] eqn:HA.
  - specialize (Hnum n eq_refl). case_decide as Hn.
    + split_and!.
      * right. lia.
      * intros n' [= <-] Hn'. apply sub_no_wrap.
        unfold MinInt, MaxInt in *. lia.
      * intros Hnot. exfalso. apply (Hnot n eq_refl). by apply Hnum.
    + split_and!.
      * destruct (findPrompt_range (questions sv) (strings_more.ToLower term) 0)
          as [->|?]; [by left|right; lia].
      * intros n' [= <-] Hn'. exfalso. apply Hn. by apply Hnum.
      * intros _. apply (findPrompt_first [] (questions sv)).
  - split_and!.
    + destruct (findPrompt_range (questions sv) (strings_more.ToLower term) 0)
        as [->|?]; [by left|right; lia].
    + done.
    + intros _. apply (findPrompt_first [] (questions sv)).
Qed.

(** X10 for the server of two questions and the term "2". *)
Lemma X10_witness :
  let sv := Run [question "A"; question "B"] [1; 0] in
  let found q :=
    strings_more.Contains
      (strings_more.ToLower (H := ascii_lower) (Question.Prompt q))
      (strings_more.ToLower (H := ascii_lower) "2") in
  let i := findQuestionIndex (H := ascii_lower) "2" sv in
  (i = -1 ∨ 0 ≤ i < len (questions sv))
  ∧ (∀ n, strconv.Atoi "2" = Some n → 1 ≤ n ≤ len (questions sv) → i = n - 1)
  ∧ ((∀ n, strconv.Atoi "2" = Some n → ¬ (1 ≤ n ≤ len (questions sv))) →
     (i = -1 ∧ ∀ q, q ∈ questions sv → found q = false)
     ∨ (∃ q, index (questions sv) i = Some q ∧ found q = true
             ∧ ∀ j q', 0 ≤ j < i → index (questions sv) j = Some q' →
                       found q' = false)).
Proof.
  apply (X10_findQuestionIndex (H := ascii_lower) "2"
           (Run [question "A"; question "B"] [1; 0])).
  vm_compute. discriminate.
Defined.

(** A search by text: "COLOR" finds the first prompt, "Sky color?". *)
Example findQuestionIndex_by_text :
  findQuestionIndex (H := ascii_lower) "COLOR"
    (Run [question "A"; question "B"] [1; 0]) = 0.
Proof. reflexivity. Qed.

(** ** The handlers of [webapp] *)

Lemma step_Questions `{Unicode} s s' : inv s → step s s' → Questions s' = Questions s.
Proof.
  intros Hinv [(answer & r & HA)|[(target & HB)| ->]]%step_cases; [| |done].
  - destruct (Answer_cases answer s r s' Hinv HA)
      as [[_ ->]|(idx & rest & res & Hq & ->)]; done.
  - destruct (BringToFront_spec target s) as (q' & HB' & _).
    rewrite HB in HB'. by injection HB' as ->.
Qed.

Lemma server_eta sv : mkServer (session sv) (questions sv) = sv.
Proof. by destruct sv. Qed.

Lemma on_session_query {A} (m : method A) sv r :
  m (session sv) = Some (r, session sv) → on_session m sv = Some (r, sv).
Proof. intros Hm. unfold on_session. rewrite Hm. simpl. by rewrite server_eta. Qed.

Lemma server_ok_step `{Unicode} sv s' :
  server_ok sv → step (session sv) s' → server_ok (mkServer s' (questions sv)).
Proof.
  intros [Hreach HQ] Hstep. split; simpl.
  - by eapply reachable_step.
  - rewrite <-HQ. apply step_Questions; [by apply reachable_inv|done].
Qed.

Lemma server_ok_Run `{Unicode} qs perm :
  len qs ≤ MaxInt → perm ≡ₚ seqZ 0 (len qs) → server_ok (Run qs perm).
Proof. intros. split; [by apply reachable_NewSession|done]. Qed.

(** *** [buildSummary] *)

Lemma summaryRows_spec rs :
  ∀ pre qs,
    length rs = length qs → len pre + len rs ≤ MaxInt →
    ∃ rows,
      summaryRows rs (len pre) (pre ++ qs) = Some rows
      ∧ length rows = length rs
      ∧ ∀ j row, rows !! j = Some row →
          ∃ res q, rs !! j = Some res ∧ qs !! j = Some q
            ∧ row = {| summaryRow.Index := len pre + Z.of_nat j + 1;
                       summaryRow.Correct := Correct res;
                       summaryRow.UserAnswer := UserAnswer res;
                       summaryRow.CorrectAnswer := Question.Answer q |}.
Proof.
  induction rs as [|res rs IH]; intros pre qs Hlen Hmax.
  - exists []. by split_and!.
  - destruct qs as [|q qs]; [done|]. simpl in Hlen. rewrite len_cons in Hmax.
    assert (0 ≤ len rs) by (unfold len; lia). assert (0 ≤ len pre) by (unfold len; lia).
    destruct (IH (pre ++ [q]) qs) as (rows & Hrows & Hl & Hrow).
    { lia. } { rewrite len_app. change (len [q]) with 1. lia. }
    rewrite len_app in Hrows. change (len [q]) with 1 in Hrows.
    rewrite <-app_assoc in Hrows. simpl in Hrows.
    cbn [summaryRows]. rewrite index_middle. simpl. rewrite Hrows. simpl.
    eexists. split_and!; [done|simpl; by rewrite Hl|].
    intros [|j] row Hj; simpl in Hj.
    + simplify_eq. exists res, q. split_and!; [done..|].
      f_equal. rewrite (incr_below _ MaxInt) by lia. lia.
    + destruct (Hrow j row Hj) as (res' & q' & ? & ? & ->).
      exists res', q'. split_and!; [done..|]. f_equal.
      rewrite len_app. change (len [q]) with 1. lia.
Qed.

Lemma rows_correct_results rs rows :
  length rows = length rs →
  (∀ j row, rows !! j = Some row →
            ∃ res, rs !! j = Some res ∧ summaryRow.Correct row = Correct res) →
  rows_correct rows = len (filter (λ r, Correct r = true) rs).
Proof.
  unfold rows_correct, len.
  revert rows. induction rs as [|r rs IH]; intros [|row rows] Hlen Hrow;
    simplify_eq/=; [done|].
  destruct (Hrow 0%nat row eq_refl) as (res & [= <-] & Hc).
  rewrite !filter_cons.
  assert (length (filter (λ row, summaryRow.Correct row = true) rows)
          = length (filter (λ r, Correct r = true) rs)) as IH'.
  { apply Nat2Z.inj. apply IH; [done|]. intros j. apply (Hrow (S j)). }
  rewrite Hc. case_decide; simpl; by rewrite IH'.
Qed.

Lemma count_correct_all att rs :
  length att = length rs →
  (∀ i r, rs !! i = Some r → Correct r = true → att !! i = Some true) →
  count_correct att rs = len (filter (λ r, Correct r = true) rs).
Proof.
  unfold len.
  revert rs. induction att as [|a att IH]; intros [|r rs] Hlen Himp;
    simplify_eq/=; [done|].
  rewrite filter_cons, IH; [|done|intros i; apply (Himp (S i))].
  destruct (Correct r) eqn:Hr.
  - rewrite (decide_True (P := true = true)) by done.
    pose proof (Himp 0%nat r eq_refl Hr). simplify_eq/=. lia.
  - rewrite (decide_False (P := false = true)) by done.
    rewrite andb_false_r. lia.
Qed.

(** X11. On a server in a reachable state [buildSummary] returns and
    leaves the server as it is.  The summary has one row for each question,
    row [i] with the number [i + 1], the stored first attempt at question
    [i] and its answer key; the score is the number of rows that are marked
    correct; score, answered and total are in order; and with nothing
    answered the percentage is [0.0], not the result of a division. *)
Theorem X11_buildSummary `{Unicode} `{Float64} sv :
  server_ok sv →
  ∃ p,
    buildSummary sv = Some (p, sv)
    ∧ summaryPayload.Total p = len (questions sv)
    ∧ len (summaryPayload.Rows p) = len (questions sv)
    ∧ (∀ i row, index (summaryPayload.Rows p) i = Some row →
         ∃ res q,
           index (results (session sv)) i = Some res
           ∧ index (questions sv) i = Some q
           ∧ row = {| summaryRow.Index := i + 1;
                      summaryRow.Correct := Correct res;
                      summaryRow.UserAnswer := UserAnswer res;
                      summaryRow.CorrectAnswer := Question.Answer q |})
    ∧ summaryPayload.Score p = rows_correct (summaryPayload.Rows p)
    ∧ 0 ≤ summaryPayload.Score p ≤ summaryPayload.Answered p
    ∧ summaryPayload.Answered p ≤ summaryPayload.Total p
    ∧ (summaryPayload.Answered p = 0 → summaryPayload.Percent p = float64_of_int 0).
Proof.
  intros [Hreach HQ]. destruct sv as [s qs]. simpl in *.
  pose proof (reachable_inv _ Hreach) as Hinv.
  destruct (reachable_first_attempts _ Hreach) as [Hzero Hfirst].
  pose proof (inv_attempted s Hinv) as Hla.
  pose proof (inv_results s Hinv) as Hlr.
  pose proof (inv_max s Hinv) as Hmax.
  assert (length (attempted s) = length (results s)) as Har by (unfold len in *; lia).
  destruct (summaryRows_spec (results s) [] (Questions s)) as (rows & Hrows & Hl & Hrow).
  { unfold len in *. lia. } { change (len []) with 0. lia. }
  change (len []) with 0 in Hrows. simpl in Hrows.
  unfold buildSummary, on_session, Results. simpl.
  rewrite (Score_inv s Hinv). simpl. rewrite Hrows. simpl.
  eexists. split; [reflexivity|]. simpl.
  assert (num_first_correct s = rows_correct rows) as Hscore.
  { rewrite num_first_correct_count by done.
    rewrite (rows_correct_results (results s) rows Hl).
    - apply count_correct_all; [done|]. intros i r Hr Hcorrect.
      assert (index (results s) (Z.of_nat i) = Some r) as Hr' by (by rewrite index_nat).
      pose proof (index_Some _ _ _ Hr') as Hi. rewrite Hlr, <-Hla in Hi.
      destruct (index_is_Some (attempted s) _ Hi) as [[] Ha].
      + by rewrite <-index_nat.
      + rewrite (Hzero _ Ha) in Hr'. by simplify_eq.
    - intros j row Hj. destruct (Hrow j row Hj) as (res & q & ? & ? & ->).
      by exists res. }
  pose proof (count_correct_bounds (attempted s) (results s)) as Hb.
  pose proof (count_true_bounds (attempted s)) as Hb'.
  rewrite <-HQ. split_and!.
  - done.
  - unfold len in *. lia.
  - intros i row Hi. pose proof (index_Some _ _ _ Hi) as Hrange.
    unfold index in Hi. rewrite decide_True in Hi by lia.
    destruct (Hrow _ row Hi) as (res & q & Hres & Hq & ->).
    exists res, q. rewrite <-(Z2Nat.id i) at 1 2 by lia. rewrite !index_nat.
    split_and!; [done..|]. f_equal. change (len []) with 0. lia.
  - done.
  - rewrite num_first_correct_count by done. lia.
  - rewrite num_first_correct_count, num_attempted_count by done. lia.
  - rewrite num_attempted_count. lia.
  - intros Hzero'. by rewrite decide_False by lia.
Qed.

(** X11 on the finished session. *)
Lemma X11_witness :
  let sv := mkServer finished_session [question "A"; question "B"] in
  ∃ p,
    buildSummary (H := rational) sv = Some (p, sv)
    ∧ summaryPayload.Total p = len (questions sv)
    ∧ len (summaryPayload.Rows p) = len (questions sv)
    ∧ (∀ i row, index (summaryPayload.Rows p) i = Some row →
         ∃ res q,
           index (results (session sv)) i = Some res
           ∧ index (questions sv) i = Some q
           ∧ row = {| summaryRow.Index := i + 1;
                      summaryRow.Correct := Correct res;
                      summaryRow.UserAnswer := UserAnswer res;
                      summaryRow.CorrectAnswer := Question.Answer q |})
    ∧ summaryPayload.Score p = rows_correct (summaryPayload.Rows p)
    ∧ 0 ≤ summaryPayload.Score p ≤ summaryPayload.Answered p
    ∧ summaryPayload.Answered p ≤ summaryPayload.Total p
    ∧ (summaryPayload.Answered p = 0
       → summaryPayload.Percent p = float64_of_int (Float64 := rational) 0).
Proof.
  apply (X11_buildSummary (H := ascii_only) (H0 := rational)).
  split; [apply reachable_finished_session|reflexivity].
Defined.

(** *** [handleState], [handleAnswer] and [handleJump] *)

Lemma Current_front s idx rest :
  inv s → queue s = idx :: rest →
  ∃ q, index (Questions s) idx = Some q ∧ Current s = Some ((idx, q, true), s).
Proof.
  intros Hinv Hq. destruct (inv_front s idx rest Hinv Hq) as (Hidx & _).
  destruct (index_is_Some (Questions s) idx Hidx) as [q Hiq].
  exists q. split; [done|]. unfold Current. by rewrite Hq, Hiq.
Qed.

Lemma remaining_no_wrap s :
  inv s → sub (len (Questions s)) (completedCount s) = len (queue s).
Proof.
  intros Hinv. pose proof (inv_remaining s Hinv) as Hrem.
  pose proof (count_true_bounds (completed s)).
  pose proof (inv_max s Hinv). rewrite (inv_completedCount s Hinv).
  assert (0 ≤ len (queue s)) by (unfold len; lia).
  rewrite sub_no_wrap; [lia|]. unfold MinInt, MaxInt in *. lia.
Qed.

Lemma buildSummary_ok `{Unicode} `{Float64} sv :
  server_ok sv → ∃ p, buildSummary sv = Some (p, sv).
Proof.
  intros [Hreach HQ]. destruct sv as [s qs]. simpl in *.
  pose proof (reachable_inv _ Hreach) as Hinv.
  destruct (summaryRows_spec (results s) [] (Questions s)) as (rows & Hrows & _).
  { pose proof (inv_results s Hinv). unfold len in *. lia. }
  { change (len []) with 0. pose proof (inv_results s Hinv).
    pose proof (inv_max s Hinv). lia. }
  change (len []) with 0 in Hrows. simpl in Hrows.
  unfold buildSummary, on_session, Results. simpl.
  rewrite (Score_inv s Hinv). simpl. rewrite Hrows. simpl. eauto.
Qed.

(** X12. On a server in a reachable state [handleState] writes a body and
    leaves the server as it is.  The progress it reports is the completed
    counter, the number of questions, the length of the queue as what
    remains, and the attempted counter.  With an empty queue the reply is
    finished and carries the summary and no question; otherwise it is not
    finished and carries the question at the front of the queue, under its
    index, and no summary. *)
Theorem X12_handleState `{Unicode} `{Float64} sv :
  server_ok sv →
  ∃ resp,
    handleState sv = Some (writeJSON resp, sv)
    ∧ stateResponse.Progress resp
      = {| progressPayload.Completed := completedCount (session sv);
           progressPayload.Total := len (questions sv);
           progressPayload.Remaining := len (queue (session sv));
           progressPayload.Attempted := attemptedCount (session sv) |}
    ∧ match queue (session sv) with
      | [] =>
        stateResponse.Finished resp = true
        ∧ stateResponse.Question resp = None
        ∧ ∃ p, stateResponse.Summary resp = Some p ∧ buildSummary sv = Some (p, sv)
      | idx :: _ =>
        stateResponse.Finished resp = false
        ∧ stateResponse.Summary resp = None
        ∧ ∃ q, index (questions sv) idx = Some q
               ∧ stateResponse.Question resp
                 = Some {| questionPayload.Index := idx;
                           questionPayload.Domain := Question.Domain q;
                           questionPayload.Prompt := Question.Prompt q;
                           questionPayload.Options := Question.Options q |}
      end.
Proof.
  intros Hok. destruct (buildSummary_ok sv Hok) as [p Hp].
  destruct Hok as [Hreach HQ]. destruct sv as [s qs]. simpl in *.
  pose proof (reachable_inv _ Hreach) as Hinv.
  pose proof (remaining_no_wrap s Hinv) as Hrem. rewrite HQ in Hrem.
  unfold handleState, on_session, Progress, AttemptedCount. simpl.
  destruct (queue s) as [|idx rest] eqn:Hq.
  - unfold Current. rewrite Hq. simpl. rewrite Hp. simpl.
    eexists. split; [reflexivity|]. simpl. rewrite HQ, Hrem.
    split_and!; [done..|]. by exists p.
  - destruct (Current_front s idx rest Hinv Hq) as (q & Hiq & ->). simpl.
    eexists. split; [reflexivity|]. simpl. rewrite HQ, Hrem.
    split_and!; [done..|]. exists q. by rewrite <-HQ.
Qed.

(** X12 on the server of two questions after a wrong answer. *)
Lemma X12_witness :
  let sv := mkServer after_wrong_answer [question "A"; question "B"] in
  ∃ resp,
    handleState (H := rational) sv = Some (writeJSON resp, sv)
    ∧ stateResponse.Progress resp
      = {| progressPayload.Completed := completedCount (session sv);
           progressPayload.Total := len (questions sv);
           progressPayload.Remaining := len (queue (session sv));
           progressPayload.Attempted := attemptedCount (session sv) |}
    ∧ stateResponse.Finished resp = false
    ∧ stateResponse.Summary resp = None
    ∧ ∃ q, index (questions sv) 0 = Some q
           ∧ stateResponse.Question resp
             = Some {| questionPayload.Index := 0;
                       questionPayload.Domain := Question.Domain q;
                       questionPayload.Prompt := Question.Prompt q;
                       questionPayload.Options := Question.Options q |}.
Proof.
  apply (X12_handleState (H := ascii_only) (H0 := rational)
           (mkServer after_wrong_answer [question "A"; question "B"])).
  split; [apply reachable_after_wrong_answer|reflexivity].
Defined.

(** X13. On a server in a reachable state, a POST to [handleAnswer] with a
    body that decodes writes a body.  With an empty queue it is
    [{finished: true}] and nothing changes.  Otherwise the reply carries
    the result and the flag of one call of [Answer] on the session, the
    answer key of the question that was at the front of the queue, and the
    progress after the call, in which what remains is the length of the
    queue; the reply is finished exactly when nothing remains. *)
Theorem X13_handleAnswer `{Unicode} sv answer :
  server_ok sv →
  ∃ resp sv',
    handleAnswer MethodPost (Some (answerRequest.mk answer)) sv
    = Some (writeJSON resp, sv')
    ∧ server_ok sv' ∧ questions sv' = questions sv
    ∧ match queue (session sv) with
      | [] => resp = answerResponse.finished ∧ sv' = sv
      | idx :: _ =>
        ∃ q, index (questions sv) idx = Some q
          ∧ Answer answer (session sv)
            = Some ((answerResponse.Result resp, answerResponse.Finished resp, None),
                    session sv')
          ∧ answerResponse.CorrectAnswer resp = Question.Answer q
          ∧ answerResponse.Progress resp
            = {| progressPayload.Completed := completedCount (session sv');
                 progressPayload.Total := len (questions sv);
                 progressPayload.Remaining := len (queue (session sv'));
                 progressPayload.Attempted := attemptedCount (session sv') |}
          ∧ (answerResponse.Finished resp = true
             ↔ progressPayload.Remaining (answerResponse.Progress resp) = 0)
      end.
Proof.
  intros Hok. pose proof Hok as [Hreach HQ]. destruct sv as [s qs]. simpl in *.
  pose proof (reachable_inv _ Hreach) as Hinv.
  unfold handleAnswer. rewrite decide_False by (by intros []).
  unfold on_session, Progress, AttemptedCount, Current. simpl.
  destruct (queue s) as [|idx rest] eqn:Hq.
  - simpl. do 2 eexists. by split_and!.
  - destruct (Current_front s idx rest Hinv Hq) as (q & Hiq & _).
    rewrite Hiq. simpl.
    destruct (Answer_inv answer s idx rest Hinv Hq) as (q' & res & _ & _ & HA & Hinv').
    rewrite HA. simpl.
    pose proof (remaining_no_wrap _ Hinv') as Hrem. simpl in Hrem.
    do 2 eexists. split; [reflexivity|]. simpl.
    assert (step s (answered s idx rest res)) as Hstep by (by eapply step_Answer).
    split_and!.
    + by apply (server_ok_step (mkServer s qs)).
    + done.
    + exists q. rewrite <-HQ. split_and!; [done|done|done| |].
      * by rewrite Hrem.
      * rewrite Hrem. by rewrite bool_decide_eq_true.
Qed.

(** X13 on the server of one question with the key "B", for the wrong
    answer "A": the first request of the test of the server. *)
Lemma X13_witness :
  let sv := Run [question "B"] [0] in
  ∃ resp sv',
    handleAnswer (H := ascii_only) MethodPost (Some (answerRequest.mk "A")) sv
    = Some (writeJSON resp, sv')
    ∧ server_ok (H := ascii_only) sv' ∧ questions sv' = questions sv
    ∧ ∃ q, index (questions sv) 0 = Some q
        ∧ Answer (H := ascii_only) "A" (session sv)
          = Some ((answerResponse.Result resp, answerResponse.Finished resp, None),
                  session sv')
        ∧ answerResponse.CorrectAnswer resp = Question.Answer q
        ∧ answerResponse.Progress resp
          = {| progressPayload.Completed := completedCount (session sv');
               progressPayload.Total := len (questions sv);
               progressPayload.Remaining := len (queue (session sv'));
               progressPayload.Attempted := attemptedCount (session sv') |}
        ∧ (answerResponse.Finished resp = true
           ↔ progressPayload.Remaining (answerResponse.Progress resp) = 0).
Proof.
  apply (X13_handleAnswer (H := ascii_only) (Run [question "B"] [0]) "A").
  apply server_ok_Run; [vm_compute; discriminate|reflexivity].
Defined.

Lemma handleAnswer_ok `{Unicode} method body sv :
  server_ok sv →
  ∃ r sv', handleAnswer method body sv = Some (r, sv')
           ∧ server_ok sv' ∧ questions sv' = questions sv.
Proof.
  intros Hok. unfold handleAnswer.
  case_decide; [by do 2 eexists|]. destruct body as [req|]; [|by do 2 eexists].
  pose proof Hok as [Hreach HQ]. destruct sv as [s qs]. simpl in *.
  pose proof (reachable_inv _ Hreach) as Hinv.
  unfold on_session, Progress, AttemptedCount, Current. simpl.
  destruct (queue s) as [|idx rest] eqn:Hq.
  - simpl. by do 2 eexists.
  - destruct (Current_front s idx rest Hinv Hq) as (q & Hiq & _).
    rewrite Hiq. simpl.
    destruct (Answer_inv (answerRequest.Answer req) s idx rest Hinv Hq)
      as (q' & res & _ & _ & HA & Hinv').
    rewrite HA. simpl. do 2 eexists. split; [reflexivity|].
    split; [|done].
    apply (server_ok_step (mkServer s qs)); [done|]. by eapply step_Answer.
Qed.

Lemma server_ok_len `{Unicode} sv : server_ok sv → len (questions sv) ≤ MaxInt.
Proof. intros [Hreach <-]. by apply inv_max, reachable_inv. Qed.

(** X14. On a server in a reachable state, a POST to [handleJump] with a
    body that decodes writes a body and changes nothing but the order of
    the queue.  The reply is found exactly when the trimmed term is not
    empty, the queue is not empty and [findQuestionIndex] finds an index;
    it then carries the number, domain and prompt of that question, and
    when the question is not yet completed it is the one that [Current()]
    returns next.  A reply that is not found leaves the server as it is. *)
Theorem X14_handleJump `{Unicode} `{UnicodeLower} sv term :
  server_ok sv →
  let idx := findQuestionIndex (strings.TrimSpace term) sv in
  ∃ resp q',
    handleJump MethodPost (Some (jumpRequest.mk term)) sv
    = Some (writeJSON resp, mkServer (set_queue (session sv) q') (questions sv))
    ∧ q' ≡ₚ queue (session sv)
    ∧ server_ok (mkServer (set_queue (session sv) q') (questions sv))
    ∧ (jumpResponse.Found resp = true
       ↔ strings.TrimSpace term ≠ EmptyString ∧ queue (session sv) ≠ [] ∧ 0 ≤ idx)
    ∧ (jumpResponse.Found resp = false →
       resp = jumpResponse.not_found ∧ q' = queue (session sv))
    ∧ (jumpResponse.Found resp = true →
       ∃ q, index (questions sv) idx = Some q
         ∧ resp = {| jumpResponse.Found := true;
                     jumpResponse.Index := idx + 1;
                     jumpResponse.Domain := Question.Domain q;
                     jumpResponse.Prompt := Question.Prompt q |}
         ∧ (index (completed (session sv)) idx = Some false →
            Current (set_queue (session sv) q')
            = Some ((idx, q, true), set_queue (session sv) q'))).
Proof.
  intros Hok idx. pose proof (server_ok_len sv Hok) as Hmax.
  pose proof Hok as [Hreach HQ]. pose proof (reachable_inv _ Hreach) as Hinv.
  subst idx. unfold handleJump. rewrite decide_False by (by intros []).
  simpl jumpRequest.Term.
  case_decide as Hterm.
  { exists jumpResponse.not_found, (queue (session sv)).
    rewrite set_queue_id, server_eta. split_and!; try done.
    split; [done|]. first [by intros [? _] | by intros (_ & ? & _) | lia]. }
  unfold on_session at 1. unfold Completed. simpl. rewrite server_eta.
  destruct (queue (session sv)) as [|front rest] eqn:Hq.
  { simpl. exists jumpResponse.not_found, [].
    rewrite <-Hq, set_queue_id, server_eta. split_and!; try done.
    split; [done|]. first [by intros [? _] | by intros (_ & ? & _) | lia]. }
  simpl. rewrite ?server_eta.
  pose proof (findQuestionIndex_range (strings.TrimSpace term) sv Hmax) as Hrange.
  remember (findQuestionIndex (strings.TrimSpace term) sv) as idx eqn:Eidx.
  clear Eidx. destruct Hrange as [Hi|Hi].
  { rewrite (decide_True (P := idx < 0)) by lia.
    exists jumpResponse.not_found, (front :: rest).
    rewrite <-Hq, set_queue_id, server_eta. split_and!; try done.
    split; [done|]. first [by intros [? _] | by intros (_ & ? & _) | lia]. }
  rewrite (decide_False (P := idx < 0)) by lia.
  destruct (BringToFront_spec idx (session sv)) as (q' & HB & Hq').
  destruct (BringToFront_inv idx (session sv) _ Hinv HB) as (Hinv1 & q'' & Heq & Hperm).
  assert (q' = q'') as <- by (by apply (f_equal queue) in Heq).
  destruct (index_is_Some (questions sv) idx Hi) as [q Hiq].
  unfold on_session. rewrite HB. simpl. rewrite Hiq. simpl.
  eexists _, q'. split; [reflexivity|]. rewrite Hq in Hperm. split_and!.
  - done.
  - apply (server_ok_step sv); [done|]. by eapply step_BringToFront.
  - simpl. split; [|done]. intros _. split_and!; [done|done|lia].
  - done.
  - intros _. exists q. split_and!; [done| |].
    + f_equal. apply (incr_below _ MaxInt); lia.
    + intros Hc. rewrite Hc in Hq'.
      destruct Hq' as [[Hnotin _]|(l1 & l2 & _ & _ & ->)].
      * exfalso. apply Hnotin. by apply (inv_queue _ Hinv).
      * unfold Current. simpl. by rewrite HQ, Hiq.
Qed.

(** X14 on the server of two questions, for the term " 1 ": question 0,
    at the back of the queue, comes to the front. *)
Lemma X14_witness :
  let sv := Run [question "A"; question "B"] [1; 0] in
  let idx := findQuestionIndex (H := ascii_lower)
               (strings.TrimSpace (H := ascii_only) " 1 ") sv in
  ∃ resp q',
    handleJump (H := ascii_only) (H0 := ascii_lower) MethodPost
               (Some (jumpRequest.mk " 1 ")) sv
    = Some (writeJSON resp, mkServer (set_queue (session sv) q') (questions sv))
    ∧ q' ≡ₚ queue (session sv)
    ∧ server_ok (H := ascii_only) (mkServer (set_queue (session sv) q') (questions sv))
    ∧ (jumpResponse.Found resp = true
       ↔ strings.TrimSpace (H := ascii_only) " 1 " ≠ EmptyString
         ∧ queue (session sv) ≠ [] ∧ 0 ≤ idx)
    ∧ (jumpResponse.Found resp = false →
       resp = jumpResponse.not_found ∧ q' = queue (session sv))
    ∧ (jumpResponse.Found resp = true →
       ∃ q, index (questions sv) idx = Some q
         ∧ resp = {| jumpResponse.Found := true;
                     jumpResponse.Index := idx + 1;
                     jumpResponse.Domain := Question.Domain q;
                     jumpResponse.Prompt := Question.Prompt q |}
         ∧ (index (completed (session sv)) idx = Some false →
            Current (set_queue (session sv) q')
            = Some ((idx, q, true), set_queue (session sv) q'))).
Proof.
  apply (X14_handleJump (H := ascii_only) (H0 := ascii_lower)
           (Run [question "A"; question "B"] [1; 0]) " 1 ").
  apply server_ok_Run; [vm_compute; discriminate|apply perm_swap].
Defined.

(** *** Every request is served *)

Lemma handleJump_ok `{Unicode} `{UnicodeLower} method body sv :
  server_ok sv →
  ∃ r sv', handleJump method body sv = Some (r, sv')
           ∧ server_ok sv' ∧ questions sv' = questions sv.
Proof.
  intros Hok. pose proof (server_ok_len sv Hok) as Hmax.
  pose proof Hok as [Hreach HQ]. pose proof (reachable_inv _ Hreach) as Hinv.
  unfold handleJump.
  case_decide; [by do 2 eexists|]. destruct body as [req|]; [|by do 2 eexists].
  case_decide; [by do 2 eexists|].
  unfold on_session at 1. unfold Completed. simpl. rewrite server_eta.
  case_bool_decide; simpl; [by do 2 eexists|]. rewrite ?server_eta.
  pose proof (findQuestionIndex_range
                (strings.TrimSpace (jumpRequest.Term req)) sv Hmax) as Hrange.
  remember (findQuestionIndex (strings.TrimSpace (jumpRequest.Term req)) sv)
    as idx eqn:Eidx.
  clear Eidx. destruct (decide (idx < 0)); [by do 2 eexists|].
  destruct Hrange as [Hi|Hi]; [lia|].
  destruct (BringToFront_spec idx (session sv)) as (q' & HB & _).
  destruct (index_is_Some (questions sv) idx Hi) as [q Hiq].
  unfold on_session. rewrite HB. simpl. rewrite Hiq. simpl.
  do 2 eexists. split; [reflexivity|]. split; [|done].
  apply (server_ok_step sv); [done|]. by eapply step_BringToFront.
Qed.

Lemma handleState_ok `{Unicode} `{Float64} sv :
  server_ok sv → ∃ r, handleState sv = Some (r, sv).
Proof.
  intros Hok. destruct (buildSummary_ok sv Hok) as [p Hp].
  destruct Hok as [Hreach HQ]. destruct sv as [s qs]. simpl in *.
  pose proof (reachable_inv _ Hreach) as Hinv.
  unfold handleState, on_session, Progress, AttemptedCount. simpl.
  destruct (queue s) as [|idx rest] eqn:Hq.
  - unfold Current. rewrite Hq. simpl. rewrite Hp. simpl. eauto.
  - destruct (Current_front s idx rest Hinv Hq) as (q & Hiq & ->). simpl. eauto.
Qed.

Lemma handleSummary_ok `{Unicode} `{Float64} sv :
  server_ok sv → ∃ r, handleSummary sv = Some (r, sv).
Proof.
  intros Hok. destruct (buildSummary_ok sv Hok) as [p Hp].
  unfold handleSummary. rewrite Hp. simpl. eauto.
Qed.

Lemma handleReset_ok `{Unicode} method perm sv :
  server_ok sv → perm ≡ₚ seqZ 0 (len (questions sv)) →
  ∃ r sv', handleReset method perm sv = Some (r, sv')
           ∧ server_ok sv' ∧ questions sv' = questions sv.
Proof.
  intros Hok Hperm. pose proof (server_ok_len sv Hok) as Hmax.
  unfold handleReset. case_decide; [by do 2 eexists|].
  do 2 eexists. split; [reflexivity|]. split; [|done].
  by apply (server_ok_Run (questions sv) perm).
Qed.

Lemma serve_ok `{Unicode} `{UnicodeLower} `{Float64} r sv :
  server_ok sv → well_drawn (questions sv) r →
  ∃ sv', serve r sv = Some sv' ∧ server_ok sv' ∧ questions sv' = questions sv.
Proof.
  intros Hok Hdrawn. destruct r as [|method body| |method perm|method body]; simpl.
  - destruct (handleState_ok sv Hok) as [r ->]. by exists sv.
  - destruct (handleAnswer_ok method body sv Hok) as (r & sv' & -> & ? & ?).
    by exists sv'.
  - destruct (handleSummary_ok sv Hok) as [r ->]. by exists sv.
  - destruct (handleReset_ok method perm sv Hok Hdrawn) as (r & sv' & -> & ? & ?).
    by exists sv'.
  - destruct (handleJump_ok method body sv Hok) as (r & sv' & -> & ? & ?).
    by exists sv'.
Qed.

(** X15. The server never panics: started by [Run] on any list of
    questions, it serves every sequence of requests to its five handlers,
    whatever the methods, the bodies and the terms are, and its session
    stays a reachable session over the questions it was started with. *)
Theorem X15_every_request_is_served `{Unicode} `{UnicodeLower} `{Float64}
    qs perm (rs : list request) :
  len qs ≤ MaxInt → perm ≡ₚ seqZ 0 (len qs) → Forall (well_drawn qs) rs →
  ∃ sv, serve_all rs (Run qs perm) = Some sv
        ∧ server_ok sv ∧ questions sv = qs.
Proof.
  intros Hmax Hperm Hrs.
  pose proof (server_ok_Run qs perm Hmax Hperm) as Hok.
  assert (questions (Run qs perm) = qs) as HQ by done.
  revert Hok HQ. generalize (Run qs perm).
  induction Hrs as [|r rs Hr _ IH]; intros sv Hok HQ.
  - by exists sv.
  - rewrite <-HQ in Hr.
    destruct (serve_ok r sv Hok Hr) as (sv' & Hserve & Hok' & HQ').
    simpl. rewrite Hserve. simpl. apply IH; [done|congruence].
Qed.

(** X15 on the requests of the test of the server: state, a wrong answer,
    the right answer, summary, reset, state. *)
Lemma X15_witness :
  ∃ sv,
    serve_all (H := ascii_only) (H0 := ascii_lower) (H1 := rational)
      [GetState; PostAnswer "POST" (Some (answerRequest.mk "A"));
       PostAnswer "POST" (Some (answerRequest.mk "B")); GetSummary;
       PostReset "POST" [0]; GetState]
      (Run [question "B"] [0]) = Some sv
    ∧ server_ok (H := ascii_only) sv ∧ questions sv = [question "B"].
Proof.
  apply (X15_every_request_is_served (H := ascii_only) (H0 := ascii_lower)
           (H1 := rational) [question "B"] [0]).
  - vm_compute. discriminate.
  - reflexivity.
  - repeat constructor.
Defined.

(** ** The helpers of the terminal front end *)

Lemma unicodeToLetter_ascii `{Unicode} ch :
  0 ≤ ch < utf8.RuneSelf →
  unicodeToLetter ch
  = Some (if (0x61 <=? ch) && (ch <=? 0x7A) then ch - 0x20 else ch).
Proof.
  intros Hch. unfold utf8.RuneSelf in Hch. unfold unicodeToLetter.
  rewrite EncodeRune_ascii by lia.
  assert (b2z (z2b ch) = ch) as Hb by (apply b2z_z2b; lia).
  destruct (ToUpper_head (z2b ch) EmptyString) as [t ->].
  { unfold utf8.RuneSelf. lia. }
  unfold strings.upperByte. rewrite Hb.
  destruct ((0x61 <=? ch) && (ch <=? 0x7A)) eqn:E.
  - rewrite b2z_z2b by lia. by case_match.
  - rewrite Hb. by case_match.
Qed.

Lemma unicodeToLetter_total `{Unicode} ch : ∃ r, unicodeToLetter ch = Some r.
Proof.
  unfold unicodeToLetter.
  pose proof (ToUpper_nonempty _ (EncodeRune_nonempty ch)) as Hne.
  destruct (strings.ToUpper (utf8.EncodeRune ch)) as [|c t]; [done|].
  case_match; eauto.
Qed.

(** X16. [unicodeToLetter] returns for every rune, a value below 256.  An
    ASCII rune comes back in upper case: the letters a to z as A to Z,
    every other ASCII rune as it is; so on ASCII a second call changes
    nothing. *)
Theorem X16_unicodeToLetter `{Unicode} ch :
  ∃ r,
    unicodeToLetter ch = Some r
    ∧ 0 ≤ r < 256
    ∧ (0 ≤ ch < utf8.RuneSelf →
       r = (if (0x61 <=? ch) && (ch <=? 0x7A) then ch - 0x20 else ch)
       ∧ unicodeToLetter r = Some r).
Proof.
  unfold unicodeToLetter at 1.
  pose proof (ToUpper_nonempty _ (EncodeRune_nonempty ch)) as Hne.
  destruct (strings.ToUpper (utf8.EncodeRune ch)) as [|c t] eqn:Hup; [done|].
  exists (b2z c). split_and!.
  - by case_match.
  - apply b2z_range.
  - apply b2z_range.
  - intros Hch.
    pose proof (unicodeToLetter_ascii ch Hch) as Hu.
    unfold unicodeToLetter in Hu. rewrite Hup in Hu.
    assert (b2z c = if (0x61 <=? ch) && (ch <=? 0x7A) then ch - 0x20 else ch) as ->
      by (destruct ((0x41 <=? b2z c) && (b2z c <=? 0x44)); by simplify_eq).
    split; [done|]. unfold utf8.RuneSelf in Hch.
    destruct ((0x61 <=? ch) && (ch <=? 0x7A)) eqn:E.
    + apply andb_true_iff in E as [??].
      rewrite unicodeToLetter_ascii by (unfold utf8.RuneSelf; lia).
      f_equal. destruct (0x61 <=? ch - 0x20) eqn:E'; [lia|done].
    + rewrite unicodeToLetter_ascii by (unfold utf8.RuneSelf; lia).
      by rewrite E.
Qed.

(** X17. [isCorrect] on ASCII: a choice that is an ASCII character other
    than NUL is right exactly for an ASCII answer key that is that one
    character, in upper or in lower case. *)
Theorem X17_isCorrect_ascii `{Unicode} choice q :
  0 < choice < utf8.RuneSelf → is_ascii (Question.Answer q) = true →
  isCorrect choice q = true
  ↔ ∃ k, Question.Answer q = String k EmptyString
         ∧ lowerByte k = lowerByte (z2b choice).
Proof.
  intros Hch Hkey. unfold utf8.RuneSelf in Hch. unfold isCorrect.
  rewrite EncodeRune_ascii by lia.
  rewrite EqualFold_ascii; [|simpl; rewrite b2z_z2b by lia..|done].
  2:{ unfold utf8.RuneSelf. apply andb_true_iff. split; [lia|done]. }
  unfold equal_ignoring_case. rewrite bool_decide_eq_true.
  destruct (Question.Answer q) as [|k [|k' rest]]; simpl.
  - split; [done|]. by intros (k & ? & _).
  - split.
    + intros [= Hk]. by exists k.
    + intros (k0 & [= <-] & ->). done.
  - split; [done|]. by intros (k0 & ? & _).
Qed.

(** X17 for the choice 'b' and the key "B". *)
Lemma X17_witness :
  isCorrect (H := ascii_only) 0x62 (question "B") = true
  ↔ ∃ k, Question.Answer (question "B") = String k EmptyString
         ∧ lowerByte k = lowerByte (z2b 0x62).
Proof.
  apply (X17_isCorrect_ascii (H := ascii_only) 0x62 (question "B")).
  - unfold utf8.RuneSelf. lia.
  - reflexivity.
Defined.

Lemma among_elem_of ch letters : among ch letters = true ↔ ch ∈ letters.
Proof.
  induction letters as [|l letters IH]; simpl.
  - split; [done|]. by intros ?%elem_of_nil.
  - rewrite elem_of_cons. case_decide; [tauto|]. rewrite IH. tauto.
Qed.

(** X18. [fallbackPrompt] returns on every input.  It skips the lines that
    are blank or whose first letter, in upper case, is none of the given
    letters; it answers with the letter of the first other line, which is
    one of the given letters, and leaves the lines after it unread; when no
    line is left it answers [(0, false)].  It prints its prompt once for
    each line it reads, and once more when the input has ended. *)
Theorem X18_fallbackPrompt `{Unicode} letters tty :
  ∃ ch ok skipped rest,
    fallbackPrompt letters tty
    = Some ((ch, ok),
            mkConsole rest
              (stdout tty
               ++ replicate (length skipped + 1) "Your answer (A-D): "%string))
    ∧ Forall (λ line, ∀ l, letter_of line = Some l → l ∉ letters) skipped
    ∧ if ok
      then ∃ line, stdin tty = skipped ++ line :: rest
                   ∧ letter_of line = Some ch ∧ ch ∈ letters
      else ch = 0 ∧ rest = [] ∧ stdin tty = skipped.
Proof.
  unfold fallbackPrompt. generalize (stdout tty) as out.
  induction (stdin tty) as [|line lines IH]; intros out.
  - exists 0, false, [], []. simpl. by split_and!.
  - cbn [fallbackPrompt_loop].
    assert (∀ out',
      (∀ l, letter_of line = Some l → l ∉ letters) →
      ∃ ch ok skipped rest,
        fallbackPrompt_loop letters lines out'
        = Some ((ch, ok),
                mkConsole rest
                  (out' ++ replicate (length skipped + 1) "Your answer (A-D): "%string))
        ∧ Forall (λ line, ∀ l, letter_of line = Some l → l ∉ letters) (line :: skipped)
        ∧ if ok
          then ∃ line', lines = skipped ++ line' :: rest
                        ∧ letter_of line' = Some ch ∧ ch ∈ letters
          else ch = 0 ∧ rest = [] ∧ lines = skipped) as Hskip.
    { intros out' Hline. destruct (IH out') as (ch & ok & skipped & rest & -> & Hsk & Hok).
      exists ch, ok, skipped, rest. split_and!; [done|by constructor|done]. }
    assert (∀ ch ok skipped rest,
      fallbackPrompt_loop letters lines (out ++ ["Your answer (A-D): "%string])
      = Some ((ch, ok),
              mkConsole rest
                ((out ++ ["Your answer (A-D): "%string])
                 ++ replicate (length skipped + 1) "Your answer (A-D): "%string)) →
      fallbackPrompt_loop letters lines (out ++ ["Your answer (A-D): "%string])
      = Some ((ch, ok),
              mkConsole rest
                (out ++ replicate (length (line :: skipped) + 1)
                                  "Your answer (A-D): "%string))) as Hout.
    { intros ch ok skipped rest ->. do 3 f_equal. by rewrite <-app_assoc. }
    destruct (strings.TrimSpace line) as [|c t] eqn:Htrim.
    + destruct (Hskip (out ++ ["Your answer (A-D): "%string]))
        as (ch & ok & skipped & rest & HF & Hsk & Hok).
      { unfold letter_of. by rewrite Htrim. }
      exists ch, ok, (line :: skipped), rest. split_and!; [by apply Hout|done|].
      destruct ok; [|by destruct Hok as (-> & -> & ->)].
      destruct Hok as (line' & -> & ? & ?). by exists line'.
    + destruct (unicodeToLetter_total (b2z c)) as [ch Hch]. rewrite Hch. simpl.
      destruct (among ch letters) eqn:Ham.
      * exists ch, true, [], lines. simpl. split_and!; [done|done|].
        exists line. split_and!; [done| |by apply among_elem_of].
        unfold letter_of. by rewrite Htrim.
      * destruct (Hskip (out ++ ["Your answer (A-D): "%string]))
          as (ch' & ok & skipped & rest & HF & Hsk & Hok).
        { unfold letter_of. rewrite Htrim, Hch. intros l [= <-] Hin%among_elem_of.
          congruence. }
        exists ch', ok, (line :: skipped), rest. split_and!; [by apply Hout|done|].
        destruct ok; [|by destruct Hok as (-> & -> & ->)].
        destruct Hok as (line' & -> & ? & ?). by exists line'.
Qed.

(** ** [padRight] and [centerLine] *)

Lemma first_sz x n lo hi :
  utf8.first x = utf8.sz n lo hi → 0x80 ≤ lo ∧ (n = 2 ∨ n = 3 ∨ n = 4)%nat.
Proof.
  unfold utf8.first. repeat case_match; intros [= <- <- <-]; split; (lia || auto).
Qed.

Lemma b2z_space : b2z " " = 0x20.
Proof. reflexivity. Qed.

(** Spaces after a string do not change its first rune, nor its width. *)
Lemma DecodeRuneInString_app_spaces c s k :
  utf8.DecodeRuneInString (String c (String.app s (spaces k)))
  = utf8.DecodeRuneInString (String c s).
Proof.
  unfold utf8.DecodeRuneInString.
  destruct (utf8.first (b2z c)) as [| |n lo hi] eqn:Hf; [done..|].
  destruct (first_sz _ _ _ _ Hf) as [Hlo Hn].
  assert ((0x20 <? lo) = true) as Hsp by lia.
  assert (utf8.cont 0x20 = false) as Hcont by done.
  destruct s as [|c1 s]; [|destruct s as [|c2 s]; [|destruct s as [|c3 s]]];
    (destruct k as [|k]; [|destruct k as [|k]; [|destruct k as [|k]]]);
    destruct Hn as [-> | [-> | ->]]; simpl; rewrite ?b2z_space, ?Hsp, ?Hcont; simpl;
    try done; repeat (case_match; try done).
Qed.

Lemma DecodeRuneInString_width c s :
  (1 ≤ (utf8.DecodeRuneInString (String c s)).2 ≤ S (String.length s))%nat.
Proof.
  unfold utf8.DecodeRuneInString.
  destruct (utf8.first (b2z c)) as [| |n lo hi] eqn:Hf; simpl; [lia..|].
  destruct (first_sz _ _ _ _ Hf) as [_ Hn].
  destruct s as [|c1 s]; [|destruct s as [|c2 s]; [|destruct s as [|c3 s]]];
    destruct Hn as [-> | [-> | ->]]; simpl;
    repeat (case_match; simpl; try lia); lia.
Qed.

Lemma runes_spaces k : runes_range 0 (spaces k) = replicate k 0x20.
Proof. induction k as [|k IH]; [done|]. simpl. by rewrite IH. Qed.

Lemma runes_range_cons c s :
  runes_range 0 (String c s)
  = (utf8.DecodeRuneInString (String c s)).1
    :: runes_range (Nat.pred (utf8.DecodeRuneInString (String c s)).2) s.
Proof.
  change (runes_range 0 (String c s))
    with (let '(r, w) := utf8.DecodeRuneInString (String c s) in
          r :: runes_range (Nat.pred w) s).
  by destruct (utf8.DecodeRuneInString (String c s)).
Qed.

Lemma runes_range_app_spaces s :
  ∀ skip k, (skip ≤ String.length s)%nat →
    runes_range skip (String.app s (spaces k))
    = runes_range skip s ++ replicate k 0x20.
Proof.
  induction s as [|c s IH]; intros skip k Hskip.
  - simpl in Hskip. assert (skip = 0%nat) as -> by lia.
    change (String.app EmptyString (spaces k)) with (spaces k).
    apply runes_spaces.
  - change (String.app (String c s) (spaces k))
      with (String c (String.app s (spaces k))).
    destruct skip as [|skip].
    + rewrite !runes_range_cons, DecodeRuneInString_app_spaces.
      pose proof (DecodeRuneInString_width c s) as Hw.
      rewrite <-app_comm_cons. f_equal. apply IH. lia.
    + simpl in Hskip. change (runes_range (S skip) (String c ?x)) with (runes_range skip x).
      apply IH. lia.
Qed.

Lemma runes_app_spaces s k : runes (String.app s (spaces k)) = runes s ++ replicate k 0x20.
Proof. apply runes_range_app_spaces. lia. Qed.

Lemma runes_spaces_app k s : runes (String.app (spaces k) s) = replicate k 0x20 ++ runes s.
Proof.
  unfold runes. induction k as [|k IH]; [done|].
  simpl. by rewrite IH.
Qed.

Lemma app_no_spaces s : String.app s (spaces 0) = s.
Proof.
  induction s as [|c s IH]; [done|].
  change (String.app (String c s) (spaces 0)) with (String c (String.app s (spaces 0))).
  by rewrite IH.
Qed.

Lemma len_replicate {A} n (x : A) : len (replicate n x) = Z.of_nat n.
Proof. unfold len. by rewrite length_replicate. Qed.

(** X19. [padRight] returns [s] followed by spaces only, as many as it
    takes to bring the number of runes to [width]; a string that has
    [width] runes or more comes back as it is. *)
Theorem X19_padRight s width :
  MinInt ≤ width ≤ MaxInt → len (runes s) ≤ MaxInt →
  ∃ r k,
    padRight s width = Some r
    ∧ r = String.app s (spaces k)
    ∧ len (runes r) = Z.max (len (runes s)) width
    ∧ (width ≤ len (runes s) → r = s).
Proof.
  intros Hw Hs. assert (0 ≤ len (runes s)) by (unfold len; lia).
  unfold padRight. case_decide as Hge.
  - exists s, 0%nat. split_and!; [done| |lia|done].
    by rewrite app_no_spaces.
  - rewrite sub_no_wrap by (unfold MinInt, MaxInt in *; lia).
    unfold Repeat_space. rewrite decide_False by lia. simpl.
    eexists _, _. split_and!; [done|done| |lia].
    rewrite runes_app_spaces, len_app, len_replicate. lia.
Qed.

(** X19 for "abc" and the width 5, a case of the test of [padRight]. *)
Lemma X19_witness :
  ∃ r k,
    padRight "abc" 5 = Some r
    ∧ r = String.app "abc" (spaces k)
    ∧ len (runes r) = Z.max (len (runes "abc")) 5
    ∧ (5 ≤ len (runes "abc") → r = "abc"%string).
Proof.
  apply (X19_padRight "abc" 5).
  - unfold MinInt, MaxInt. lia.
  - vm_compute. discriminate.
Defined.

(** The cases of the test [TestPadRight]. *)
Example padRight_test :
  padRight "abc" 5 = Some "abc  "%string
  ∧ padRight "abc" 3 = Some "abc"%string
  ∧ padRight EmptyString 2 = Some "  "%string.
Proof. by split_and!. Qed.

(** X20. [centerLine] returns [s] after spaces only.  With a width that
    is not positive, or smaller than the number of runes of [s] plus two,
    it returns [s] itself; otherwise the spaces in front are half of what
    the width leaves free, rounded down, so that the room to the right of
    the line is the room to its left or one more. *)
Theorem X20_centerLine s width :
  MinInt ≤ width ≤ MaxInt → len (runes s) ≤ MaxInt →
  ∃ r k,
    centerLine s width = Some r
    ∧ r = String.app (spaces k) s
    ∧ len (runes r) = len (runes s) + Z.of_nat k
    ∧ (width < len (runes s) + 2 → k = 0%nat)
    ∧ (0 < width → len (runes s) ≤ width →
       Z.of_nat k ≤ width - len (runes r) ≤ Z.of_nat k + 1).
Proof.
  intros Hw Hs. assert (0 ≤ len (runes s)) by (unfold len; lia).
  unfold centerLine. case_decide as Hpos.
  - exists s, 0%nat. split_and!; [done|done|lia|done|lia].
  - rewrite sub_no_wrap by (unfold MinInt, MaxInt in *; lia).
    set (free := width - len (runes s)).
    assert (MinInt ≤ free ≤ MaxInt) by (unfold MinInt, MaxInt in *; lia).
    assert (wrap (free ÷ 2) = free ÷ 2) as ->.
    { unfold wrap. unfold MinInt, MaxInt in *.
      pose proof (Z.quot_lt_upper_bound free 2).
      rewrite Z.mod_small; [lia|].
      destruct (decide (0 ≤ free)).
      - pose proof (Z.quot_pos free 2). pose proof (Z.quot_le_upper_bound free 2 free).
        lia.
      - pose proof (Z.quot_opp_l free 2). 
        assert (0 ≤ (- free) ÷ 2 ≤ - free).
        { split; [apply Z.quot_pos; lia|].
          apply Z.quot_le_upper_bound; lia. }
        lia. }
    destruct (decide (free ÷ 2 < 0)) as [Hneg|Hnn].
    + unfold Repeat_space. rewrite decide_False by lia. simpl.
      exists s, 0%nat. split_and!; [done|done|lia|done|].
      intros _ Hle. assert (0 ≤ free ÷ 2) by (apply Z.quot_pos; lia). lia.
    + unfold Repeat_space. rewrite decide_False by lia. simpl.
      eexists _, _. split_and!; [done|done| | |].
      * rewrite runes_spaces_app, len_app, len_replicate. lia.
      * intros Hsmall. assert (free ÷ 2 = 0); [|lia].
        destruct (decide (0 ≤ free)); [apply Z.quot_small; lia|].
        assert (free ÷ 2 ≤ 0); [|lia]. 
        rewrite <-(Z.opp_involutive free), Z.quot_opp_l by lia.
        assert (0 ≤ (- free) ÷ 2) by (apply Z.quot_pos; lia). lia.
      * intros _ Hle. rewrite runes_spaces_app, len_app, len_replicate.
        rewrite Z2Nat.id by lia.
        assert (0 ≤ free) by lia.
        rewrite Z.quot_div_nonneg by lia.
        pose proof (Z.div_mod free 2). pose proof (Z.mod_pos_bound free 2). lia.
Qed.

(** X20 for "abc" in a width of 10. *)
Lemma X20_witness :
  ∃ r k,
    centerLine "abc" 10 = Some r
    ∧ r = String.app (spaces k) "abc"
    ∧ len (runes r) = len (runes "abc") + Z.of_nat k
    ∧ (10 < len (runes "abc") + 2 → k = 0%nat)
    ∧ (0 < 10 → len (runes "abc") ≤ 10 →
       Z.of_nat k ≤ 10 - len (runes r) ≤ Z.of_nat k + 1).
Proof.
  apply (X20_centerLine "abc" 10).
  - unfold MinInt, MaxInt. lia.
  - vm_compute. discriminate.
Defined.
